(** * Extended Kalman Filter with the CTRV motion model
    (Extended-Kalman-Filter-CTRV2.ipynb, filter loop)

    Shallow embedding of the notebook's filter step.  Floating-point
    numbers are modelled as exact reals ([R]); numpy matrices as functions
    [nat -> nat -> R] read on their index range; the column state vector
    [x] as [nat -> R] updated in place by [vset]; [np.linalg.inv] on the
    2x2 innovation covariance as a partial function that fails exactly when
    the matrix is singular (numpy raises [LinAlgError]).  The GPS
    preprocessing (latitude/longitude to metres, the GPS trigger), the
    initial state and the conversion of the estimates back to
    latitude/longitude are modelled on lists of reals. *)

From Stdlib Require Import Reals Psatz Lia Bool List.
Import ListNotations.
Local Open Scope R_scope.

(* ------------------------------------------------------------------ *)
(** ** Vectors and matrices *)

Definition Vec := nat -> R.
Definition Mat := nat -> nat -> R.

(** [x[i] = a] *)
Definition vset (v : Vec) (i : nat) (a : R) : Vec :=
  fun j => if Nat.eqb j i then a else v j.

Fixpoint sumn (n : nat) (f : nat -> R) : R :=
  match n with
  | O => 0
  | S n' => sumn n' f + f n'
  end.

(** [A*B] with inner dimension [m]. *)
Definition mmul (m : nat) (A B : Mat) : Mat :=
  fun i j => sumn m (fun k => A i k * B k j).

(** [A.T] *)
Definition mtr (A : Mat) : Mat := fun i j => A j i.

Definition madd (A B : Mat) : Mat := fun i j => A i j + B i j.
Definition msub (A B : Mat) : Mat := fun i j => A i j - B i j.

(** [np.eye] *)
Definition ident : Mat := fun i j => if Nat.eqb i j then 1 else 0.

Definition mzero : Mat := fun _ _ => 0.

(** [A*v] for a column vector, inner dimension [m]. *)
Definition mv (m : nat) (A : Mat) (v : Vec) : Vec :=
  fun i => sumn m (fun k => A i k * v k).

Definition vadd (u w : Vec) : Vec := fun i => u i + w i.
Definition vsub (u w : Vec) : Vec := fun i => u i - w i.

(** Equality of two [m x n] matrices. *)
Definition mat_eq (m n : nat) (A B : Mat) : Prop :=
  forall i j, (i < m)%nat -> (j < n)%nat -> A i j = B i j.

(** [A.T * u] with [u] of dimension [n]. *)
Definition tmv (n : nat) (A : Mat) (u : Vec) : Vec :=
  fun k => sumn n (fun i => u i * A i k).

(** [u.T * C * w] for an [n x p] matrix [C]. *)
Definition bil (n p : nat) (C : Mat) (u w : Vec) : R :=
  sumn n (fun i => u i * mv p C w i).

Definition quad (n : nat) (C : Mat) (v : Vec) : R := bil n n C v v.

Definition sym (n : nat) (A : Mat) : Prop :=
  forall i j, (i < n)%nat -> (j < n)%nat -> A i j = A j i.

(** Positive semidefinite and positive definite. *)
Definition psd (n : nat) (A : Mat) : Prop := forall v, 0 <= quad n A v.
Definition pd (n : nat) (A : Mat) : Prop :=
  forall v, (exists i, (i < n)%nat /\ v i <> 0) -> 0 < quad n A v.

Definition diag5 (a b c d e : R) : Mat :=
  fun i j =>
    match i, j with
    | 0%nat, 0%nat => a | 1%nat, 1%nat => b | 2%nat, 2%nat => c | 3%nat, 3%nat => d | 4%nat, 4%nat => e
    | _, _ => 0
    end.

Definition vec5 (a b c d e : R) : Vec :=
  fun i => match i with
           | 0%nat => a | 1%nat => b | 2%nat => c | 3%nat => d | 4%nat => e | _ => 0
           end.

Definition diag2 (a b : R) : Mat :=
  fun i j => match i, j with 0%nat, 0%nat => a | 1%nat, 1%nat => b | _, _ => 0 end.

(** [np.linalg.inv] on a 2x2 matrix: [None] is the [LinAlgError] raised on
    a singular matrix. *)
Definition det2 (S : Mat) : R := S 0%nat 0%nat * S 1%nat 1%nat - S 0%nat 1%nat * S 1%nat 0%nat.

Definition inv2 (S : Mat) : option Mat :=
  let d := det2 S in
  if Req_EM_T d 0 then None
  else Some (fun i j =>
         match i, j with
         | 0%nat, 0%nat => S 1%nat 1%nat / d
         | 0%nat, 1%nat => - S 0%nat 1%nat / d
         | 1%nat, 0%nat => - S 1%nat 0%nat / d
         | 1%nat, 1%nat => S 0%nat 0%nat / d
         | _, _ => 0
         end).

(* ------------------------------------------------------------------ *)
(** ** Motion model: prediction of the state *)

(** Python's float [a % b] (result has the sign of [b]). *)
Definition pymod (a b : R) : R := a - b * IZR (Int_part (a / b)).

(** [(a + np.pi) % (2.0*np.pi) - np.pi] *)
Definition wrap (a : R) : R := pymod (a + PI) (2 * PI) - PI.

(** The threshold [0.0001] of the regime test and the value [0.0000001]
    written into the yaw rate in the straight branch. *)
Definition eps_yaw : R := 1 / 10000.
Definition yaw_clamp : R := 1 / 10000000.

(** Time update of the state, with the in-place assignments of the loop
    body in their source order.  [yawrate_k] is [yawrate[filterstep]], the
    raw yaw-rate column of the data file at this step.  The turning branch
    divides by [x[4]]: Rocq's [r / 0 = 0] differs there from numpy's inf and
    NaN, so every statement below about the turning branch's position or
    the Jacobian assumes [x[4] <> 0] on a turning step. *)
Definition predict_state (dt yawrate_k : R) (x : Vec) : Vec :=
  if Rlt_dec (Rabs yawrate_k) eps_yaw then (* Driving straight *)
    let x := vset x 0 (x 0%nat + x 3%nat * dt * cos (x 2%nat)) in
    let x := vset x 1 (x 1%nat + x 3%nat * dt * sin (x 2%nat)) in
    let x := vset x 2 (x 2%nat) in
    let x := vset x 3 (x 3%nat) in
    vset x 4 yaw_clamp
  else
    let x := vset x 0 (x 0%nat + (x 3%nat / x 4%nat)
                                 * (sin (x 4%nat * dt + x 2%nat) - sin (x 2%nat))) in
    let x := vset x 1 (x 1%nat + (x 3%nat / x 4%nat)
                                 * (- cos (x 4%nat * dt + x 2%nat) + cos (x 2%nat))) in
    let x := vset x 2 (pymod (x 2%nat + x 4%nat * dt + PI) (2 * PI) - PI) in
    let x := vset x 3 (x 3%nat) in
    vset x 4 (x 4%nat).

(* ------------------------------------------------------------------ *)
(** ** Jacobian of the dynamic matrix, computed from the current [x] *)

(** [a13] to [a25] divide by [x[4]]; at [x[4] = 0] numpy yields inf and
    NaN where the real division of the model yields finite values. *)

Definition a13 (dt : R) (x : Vec) : R :=
  (x 3%nat / x 4%nat) * (cos (x 4%nat * dt + x 2%nat) - cos (x 2%nat)).
Definition a14 (dt : R) (x : Vec) : R :=
  (1 / x 4%nat) * (sin (x 4%nat * dt + x 2%nat) - sin (x 2%nat)).
Definition a15 (dt : R) (x : Vec) : R :=
  (dt * x 3%nat / x 4%nat) * cos (x 4%nat * dt + x 2%nat)
  - (x 3%nat / x 4%nat ^ 2) * (sin (x 4%nat * dt + x 2%nat) - sin (x 2%nat)).
Definition a23 (dt : R) (x : Vec) : R :=
  (x 3%nat / x 4%nat) * (sin (x 4%nat * dt + x 2%nat) - sin (x 2%nat)).
Definition a24 (dt : R) (x : Vec) : R :=
  (1 / x 4%nat) * (- cos (x 4%nat * dt + x 2%nat) + cos (x 2%nat)).
Definition a25 (dt : R) (x : Vec) : R :=
  (dt * x 3%nat / x 4%nat) * sin (x 4%nat * dt + x 2%nat)
  - (x 3%nat / x 4%nat ^ 2) * (- cos (x 4%nat * dt + x 2%nat) + cos (x 2%nat)).

Definition JA_of (dt : R) (x : Vec) : Mat :=
  fun i j =>
    match i, j with
    | 0%nat, 0%nat => 1 | 0%nat, 1%nat => 0 | 0%nat, 2%nat => a13 dt x | 0%nat, 3%nat => a14 dt x | 0%nat, 4%nat => a15 dt x
    | 1%nat, 0%nat => 0 | 1%nat, 1%nat => 1 | 1%nat, 2%nat => a23 dt x | 1%nat, 3%nat => a24 dt x | 1%nat, 4%nat => a25 dt x
    | 2%nat, 0%nat => 0 | 2%nat, 1%nat => 0 | 2%nat, 2%nat => 1 | 2%nat, 3%nat => 0 | 2%nat, 4%nat => dt
    | 3%nat, 0%nat => 0 | 3%nat, 1%nat => 0 | 3%nat, 2%nat => 0 | 3%nat, 3%nat => 1 | 3%nat, 4%nat => 0
    | 4%nat, 0%nat => 0 | 4%nat, 1%nat => 0 | 4%nat, 2%nat => 0 | 4%nat, 3%nat => 0 | 4%nat, 4%nat => 1
    | _, _ => 0
    end.

(* ------------------------------------------------------------------ *)
(** ** Measurement update *)

Definition JH_gps : Mat :=
  fun i j => match i, j with 0%nat, 0%nat => 1 | 1%nat, 1%nat => 1 | _, _ => 0 end.

Definition JH_none : Mat := mzero.

Definition JH_of (gps_k : bool) : Mat := if gps_k then JH_gps else JH_none.

(** [hx = np.matrix([[float(x[0])],[float(x[1])]])] *)
Definition hx_of (x : Vec) : Vec :=
  fun i => match i with 0%nat => x 0%nat | 1%nat => x 1%nat | _ => 0 end.

(** [P = JA*P*JA.T + Q] *)
Definition predict_cov (JA P Q : Mat) : Mat :=
  madd (mmul 5 (mmul 5 JA P) (mtr JA)) Q.

(** [S = JH*P*JH.T + R] *)
Definition innov_cov (JH P Rm : Mat) : Mat :=
  madd (mmul 5 (mmul 5 JH P) (mtr JH)) Rm.

(** [K = (P*JH.T) * np.linalg.inv(S)], given the inverse. *)
Definition gain (P JH Si : Mat) : Mat := mmul 2 (mmul 5 P (mtr JH)) Si.

(** [y = Z - (hx)] *)
Definition residual (Z hx : Vec) : Vec := vsub Z hx.

(** [P = (I - (K*JH))*P] *)
Definition correct_cov (K JH P : Mat) : Mat :=
  mmul 5 (msub ident (mmul 2 K JH)) P.

Record config := mkConfig { cfg_dt : R; cfg_Q : Mat; cfg_R : Mat }.

(** Time update: [x] is overwritten by the motion equations, then [JA] is
    computed from the overwritten [x], then [P = JA*P*JA.T + Q]. *)
Definition predict (c : config) (yawrate_k : R) (x : Vec) (P : Mat) : Vec * Mat * Mat :=
  let dt := cfg_dt c in
  let x := predict_state dt yawrate_k x in
  let JA := JA_of dt x in
  let P := predict_cov JA P (cfg_Q c) in
  (x, JA, P).

(** Measurement update.  The result is [(x, P, K)], or [None] when
    [np.linalg.inv(S)] raises. *)
Definition update (c : config) (gps_k : bool) (z_k : Vec) (x : Vec) (P : Mat)
  : option (Vec * Mat * Mat) :=
  let hx := hx_of x in
  let JH := JH_of gps_k in
  let S := innov_cov JH P (cfg_R c) in
  match inv2 S with
  | None => None
  | Some Si =>
      let K := gain P JH Si in
      let Z := z_k in
      let y := residual Z hx in
      let x := vadd x (mv 2 K y) in
      let P := correct_cov K JH P in
      Some (x, P, K)
  end.

(** One iteration of [for filterstep in range(m)]: [yawrate_k] is
    [yawrate[filterstep]], [gps_k] is [GPS[filterstep]] and [z_k] is
    [measurements[:,filterstep]]. *)
Definition filter_step (c : config) (yawrate_k : R) (gps_k : bool) (z_k : Vec)
    (x : Vec) (P : Mat) : option (Vec * Mat * Mat) :=
  match predict c yawrate_k x P with
  | (x', _, P') => update c gps_k z_k x' P'
  end.

Record step_input := mkInput { in_yawrate : R; in_gps : bool; in_z : Vec }.

(** The whole loop over the recorded steps. *)
Fixpoint run (c : config) (ins : list step_input) (x : Vec) (P : Mat)
  : option (Vec * Mat) :=
  match ins with
  | [] => Some (x, P)
  | i :: rest =>
      match filter_step c (in_yawrate i) (in_gps i) (in_z i) x P with
      | None => None
      | Some (x', P', _) => run c rest x' P'
      end
  end.

(** The loop with the Jacobian of each step given as an arbitrary real
    matrix in place of [JA_of dt x]: the covariance recursion
    [P = JA*P*JA.T + Q], [P = (I - (K*JH))*P] of the loop body for any
    sequence of Jacobians.  The loop itself is the case where each [JA] is
    [JA_of dt] of the predicted state (see [filter_step_with_JA]). *)
Fixpoint run_with_JA (c : config) (ins : list (step_input * Mat)) (x : Vec) (P : Mat)
  : option (Vec * Mat) :=
  match ins with
  | [] => Some (x, P)
  | (i, JA) :: rest =>
      let x1 := predict_state (cfg_dt c) (in_yawrate i) x in
      let P1 := predict_cov JA P (cfg_Q c) in
      match update c (in_gps i) (in_z i) x1 P1 with
      | None => None
      | Some (x', P', _) => run_with_JA c rest x' P'
      end
  end.

(** The notebook's configuration: [dt = 1.0/50.0], [Q] from the assumed
    maximal accelerations, [R] from [varGPS = 6.0], initial [P]. *)
Definition dt_nb : R := 1 / 50.
Definition sGPS : R := 0.5 * 8.8 * dt_nb ^ 2.
Definition sCourse : R := 0.1 * dt_nb.
Definition sVelocity : R := 8.8 * dt_nb.
Definition sYaw : R := 1.0 * dt_nb.
Definition Q_nb : Mat := diag5 (sGPS ^ 2) (sGPS ^ 2) (sCourse ^ 2) (sVelocity ^ 2) (sYaw ^ 2).
Definition varGPS : R := 6.0.
Definition R_nb : Mat := diag2 (varGPS ^ 2) (varGPS ^ 2).
Definition P0_nb : Mat := diag5 1000 1000 1000 1000 1000.
Definition cfg_nb : config := mkConfig dt_nb Q_nb R_nb.

(** A configuration whose position-measurement variances are both zero. *)
Definition R_degenerate : Mat := diag2 0 0.
Definition cfg_degenerate : config := mkConfig dt_nb Q_nb R_degenerate.

(* ------------------------------------------------------------------ *)
(** ** GPS preprocessing: latitude/longitude to metres, GPS trigger

    The columns read by [np.loadtxt] are lists of reals of one common
    length; elementwise numpy operations on two arrays are [map] over
    [combine], which agrees with numpy on arrays of equal length. *)

Definition RadiusEarth : R := 6378388.0.

(** [np.diff] *)
Fixpoint diff (l : list R) : list R :=
  match l with
  | a :: ((b :: _) as t) => (b - a) :: diff t
  | _ => []
  end.

(** [np.hstack((0.0, np.diff(l)))] *)
Definition hdiff (l : list R) : list R := 0 :: diff l.

(** [np.cumsum], the running total started at [acc]. *)
Fixpoint cumsum_from (acc : R) (l : list R) : list R :=
  match l with
  | [] => []
  | a :: t => (acc + a) :: cumsum_from (acc + a) t
  end.

Definition cumsum (l : list R) : list R := cumsum_from 0 l.

(** Elementwise product [u * w]. *)
Definition emul (u w : list R) : list R := map (fun p => fst p * snd p) (combine u w).

(** [arc= 2.0*np.pi*(RadiusEarth+altitude)/360.0] *)
Definition arc_of (altitude : list R) : list R :=
  map (fun a => 2 * PI * (RadiusEarth + a) / 360) altitude.

(** [np.cos(latitude*np.pi/180.0)] *)
Definition coslat (latitude : list R) : list R :=
  map (fun l => cos (l * PI / 180)) latitude.

(** [dx = arc * np.cos(latitude*np.pi/180.0) * np.hstack((0.0, np.diff(longitude)))] *)
Definition dx_of (latitude longitude altitude : list R) : list R :=
  emul (emul (arc_of altitude) (coslat latitude)) (hdiff longitude).

(** [dy = arc * np.hstack((0.0, np.diff(latitude)))] *)
Definition dy_of (latitude altitude : list R) : list R :=
  emul (arc_of altitude) (hdiff latitude).

(** [mx = np.cumsum(dx)], [my = np.cumsum(dy)] *)
Definition mx_of (latitude longitude altitude : list R) : list R :=
  cumsum (dx_of latitude longitude altitude).
Definition my_of (latitude altitude : list R) : list R :=
  cumsum (dy_of latitude altitude).

(** [ds = np.sqrt(dx**2+dy**2)] *)
Definition ds_of (dx dy : list R) : list R :=
  map (fun p => sqrt (fst p ^ 2 + snd p ^ 2)) (combine dx dy).

(** [GPS=(ds!=0.0).astype('bool')] *)
Definition GPS_of (latitude longitude altitude : list R) : list bool :=
  map (fun d => if Req_EM_T d 0 then false else true)
      (ds_of (dx_of latitude longitude altitude) (dy_of latitude altitude)).

(** [x = np.matrix([[mx[0], my[0], course[0]/180.0*np.pi,
    speed[0]/3.6+0.001, yawrate[0]/180.0*np.pi]]).T]; the lists are
    non-empty (on an empty list the indexing raises). *)
Definition x_init (mx my course speed yawrate : list R) : Vec :=
  vec5 (nth 0 mx 0) (nth 0 my 0) (nth 0 course 0 / 180 * PI)
       (nth 0 speed 0 / 3.6 + 0.001) (nth 0 yawrate 0 / 180 * PI).

(** Back to geographic coordinates, from the estimated positions [x0] and
    [x1] of each step:
    [latekf = latitude[0] + np.divide(x1,arc)] and
    [lonekf = longitude[0]+ np.divide(x0,np.multiply(arc,np.cos(latitude*np.pi/180.0)))]. *)
Definition latekf_of (latitude altitude x1 : list R) : list R :=
  map (fun p => nth 0 latitude 0 + fst p / snd p) (combine x1 (arc_of altitude)).
Definition lonekf_of (latitude longitude altitude x0 : list R) : list R :=
  map (fun p => nth 0 longitude 0 + fst p / snd p)
      (combine x0 (emul (arc_of altitude) (coslat latitude))).

(* ================================================================== *)
(** ** Finite sums *)

Lemma sumn_ext (n : nat) (f g : nat -> R) :
  (forall k, (k < n)%nat -> f k = g k) -> sumn n f = sumn n g.
Proof.
  induction n as [|n IH]; intros H; simpl; [reflexivity|].
  rewrite IH by (intros; apply H; lia). rewrite H by lia. reflexivity.
Qed.

Lemma sumn_zero (n : nat) (f : nat -> R) :
  (forall k, (k < n)%nat -> f k = 0) -> sumn n f = 0.
Proof.
  induction n as [|n IH]; intros H; simpl; [reflexivity|].
  rewrite IH by (intros; apply H; lia). rewrite H by lia. ring.
Qed.

Lemma sumn_add (n : nat) (f g : nat -> R) :
  sumn n (fun k => f k + g k) = sumn n f + sumn n g.
Proof. induction n as [|n IH]; simpl; [ring|]. rewrite IH. ring. Qed.

Lemma sumn_sub (n : nat) (f g : nat -> R) :
  sumn n (fun k => f k - g k) = sumn n f - sumn n g.
Proof. induction n as [|n IH]; simpl; [ring|]. rewrite IH. ring. Qed.

Lemma sumn_scal_l (n : nat) (a : R) (f : nat -> R) :
  sumn n (fun k => a * f k) = a * sumn n f.
Proof. induction n as [|n IH]; simpl; [ring|]. rewrite IH. ring. Qed.

Lemma sumn_scal_r (n : nat) (a : R) (f : nat -> R) :
  sumn n (fun k => f k * a) = sumn n f * a.
Proof. induction n as [|n IH]; simpl; [ring|]. rewrite IH. ring. Qed.

Lemma sumn_swap (n m : nat) (f : nat -> nat -> R) :
  sumn n (fun i => sumn m (fun j => f i j)) = sumn m (fun j => sumn n (fun i => f i j)).
Proof.
  induction n as [|n IH]; simpl.
  - symmetry. apply sumn_zero. reflexivity.
  - rewrite IH, <- sumn_add. reflexivity.
Qed.

(** Row [i] of [np.eye] picks entry [i]. *)
Lemma sumn_ident_l (n i : nat) (f : nat -> R) :
  (i < n)%nat -> sumn n (fun k => ident i k * f k) = f i.
Proof.
  induction n as [|n IH]; intros Hi; [lia|]. simpl. unfold ident at 2.
  destruct (Nat.eq_dec i n) as [->|ne].
  - rewrite Nat.eqb_refl. rewrite sumn_zero; [ring|].
    intros k Hk. unfold ident. rewrite (proj2 (Nat.eqb_neq n k)) by lia. ring.
  - rewrite (proj2 (Nat.eqb_neq i n)) by exact ne. rewrite IH by lia. ring.
Qed.

Lemma sumn_ident_r (n i : nat) (f : nat -> R) :
  (i < n)%nat -> sumn n (fun k => f k * ident k i) = f i.
Proof.
  intros Hi. rewrite <- (sumn_ident_l n i f Hi). apply sumn_ext. intros k _.
  unfold ident. rewrite Nat.eqb_sym. ring.
Qed.

(* ================================================================== *)
(** ** Bilinear forms *)

Lemma bil_tmv (n p : nat) (C : Mat) (u w : Vec) :
  bil n p C u w = sumn p (fun j => tmv n C u j * w j).
Proof.
  unfold bil, mv, tmv.
  transitivity (sumn n (fun i => sumn p (fun j => u i * C i j * w j))).
  - apply sumn_ext. intros i _. rewrite <- sumn_scal_l. apply sumn_ext.
    intros; ring.
  - rewrite sumn_swap. apply sumn_ext. intros j _. rewrite <- sumn_scal_r.
    apply sumn_ext. intros; ring.
Qed.

Lemma mmul_assoc (m p : nat) (A B C : Mat) (i j : nat) :
  mmul p (mmul m A B) C i j = mmul m A (mmul p B C) i j.
Proof.
  unfold mmul.
  transitivity (sumn p (fun k => sumn m (fun l => A i l * B l k * C k j))).
  - apply sumn_ext. intros k _. rewrite <- sumn_scal_r. reflexivity.
  - rewrite sumn_swap. apply sumn_ext. intros l _. rewrite <- sumn_scal_l.
    apply sumn_ext. intros; ring.
Qed.

Lemma mv_mmul (m p : nat) (A B : Mat) (w : Vec) (i : nat) :
  mv p (mmul m A B) w i = mv m A (mv p B w) i.
Proof.
  unfold mv, mmul.
  transitivity (sumn p (fun j => sumn m (fun k => A i k * B k j * w j))).
  - apply sumn_ext. intros j _. rewrite <- sumn_scal_r. reflexivity.
  - rewrite sumn_swap. apply sumn_ext. intros k _. rewrite <- sumn_scal_l.
    apply sumn_ext. intros; ring.
Qed.

Lemma tmv_mmul (n m : nat) (A B : Mat) (u : Vec) (k : nat) :
  tmv n (mmul m A B) u k = tmv m B (tmv n A u) k.
Proof.
  unfold tmv, mmul.
  transitivity (sumn n (fun i => sumn m (fun l => u i * A i l * B l k))).
  - apply sumn_ext. intros i _. rewrite <- sumn_scal_l. apply sumn_ext.
    intros; ring.
  - rewrite sumn_swap. apply sumn_ext. intros l _. rewrite <- sumn_scal_r.
    reflexivity.
Qed.

Lemma mv_mtr (p : nat) (A : Mat) (w : Vec) (i : nat) : mv p (mtr A) w i = tmv p A w i.
Proof. unfold mv, tmv, mtr. apply sumn_ext. intros; ring. Qed.

Lemma tmv_mtr (n : nat) (A : Mat) (u : Vec) (k : nat) : tmv n (mtr A) u k = mv n A u k.
Proof. unfold mv, tmv, mtr. apply sumn_ext. intros; ring. Qed.

Lemma bil_ext (n p : nat) (C : Mat) (u u' w w' : Vec) :
  (forall i, (i < n)%nat -> u i = u' i) -> (forall j, (j < p)%nat -> w j = w' j) ->
  bil n p C u w = bil n p C u' w'.
Proof.
  intros Hu Hw. unfold bil, mv. apply sumn_ext. intros i Hi. rewrite Hu by exact Hi.
  f_equal. apply sumn_ext. intros j Hj. rewrite Hw by exact Hj. reflexivity.
Qed.

Lemma bil_mmul_l (n m p : nat) (A B : Mat) (u w : Vec) :
  bil n p (mmul m A B) u w = bil m p B (tmv n A u) w.
Proof.
  unfold bil at 1.
  transitivity (bil n m A u (mv p B w)).
  - unfold bil. apply sumn_ext. intros i _. rewrite mv_mmul. reflexivity.
  - rewrite bil_tmv. unfold bil. apply sumn_ext. intros; ring.
Qed.

Lemma bil_mmul_r (n m p : nat) (A B : Mat) (u w : Vec) :
  bil n p (mmul m A B) u w = bil n m A u (mv p B w).
Proof. unfold bil. apply sumn_ext. intros i _. rewrite mv_mmul. reflexivity. Qed.

Lemma bil_madd (n p : nat) (A B : Mat) (u w : Vec) :
  bil n p (madd A B) u w = bil n p A u w + bil n p B u w.
Proof.
  unfold bil, mv, madd. rewrite <- sumn_add. apply sumn_ext. intros i _.
  rewrite <- Rmult_plus_distr_l, <- sumn_add. f_equal. apply sumn_ext. intros; ring.
Qed.

Lemma bil_vadd_r (n p : nat) (C : Mat) (u w1 w2 : Vec) :
  bil n p C u (vadd w1 w2) = bil n p C u w1 + bil n p C u w2.
Proof.
  unfold bil, mv, vadd. rewrite <- sumn_add. apply sumn_ext. intros i _.
  rewrite <- Rmult_plus_distr_l, <- sumn_add. f_equal. apply sumn_ext. intros; ring.
Qed.

Lemma bil_sym (n : nat) (C : Mat) (u w : Vec) :
  sym n C -> bil n n C u w = bil n n C w u.
Proof.
  intros Hs. rewrite bil_tmv. unfold bil, tmv, mv. apply sumn_ext. intros j Hj.
  rewrite Rmult_comm. f_equal. apply sumn_ext. intros i Hi. rewrite (Hs i j Hi Hj). ring.
Qed.

Lemma mv_sym (n : nat) (C : Mat) (v : Vec) (i : nat) :
  sym n C -> (i < n)%nat -> mv n C v i = tmv n C v i.
Proof.
  intros Hs Hi. unfold mv, tmv. apply sumn_ext. intros k Hk. rewrite (Hs i k Hi Hk). ring.
Qed.

(** [v.T (A P A.T) v = (A.T v).T P (A.T v)]. *)
Lemma quad_sandwich (n p : nat) (A P : Mat) (v : Vec) :
  quad n (mmul p (mmul p A P) (mtr A)) v = quad p P (tmv n A v).
Proof.
  unfold quad. rewrite bil_mmul_l. unfold bil at 1.
  rewrite (bil_tmv p p P). apply sumn_ext. intros k _.
  rewrite tmv_mmul, mv_mtr. ring.
Qed.

(** Entry [(i,j)] of [A P B.T] as a bilinear form of the rows. *)
Lemma mmul_sandwich_entry (m p : nat) (A P B : Mat) (i j : nat) :
  mmul p (mmul m A P) (mtr B) i j = bil m p P (fun l => A i l) (fun k => B j k).
Proof.
  unfold bil, mv, mmul, mtr.
  transitivity (sumn p (fun k => sumn m (fun l => A i l * P l k * B j k))).
  - apply sumn_ext. intros k _. rewrite <- sumn_scal_r. reflexivity.
  - rewrite sumn_swap. apply sumn_ext. intros l _. rewrite <- sumn_scal_l.
    apply sumn_ext. intros; ring.
Qed.

Lemma sym_sandwich (n p : nat) (A P : Mat) :
  sym p P -> sym n (mmul p (mmul p A P) (mtr A)).
Proof.
  intros Hs i j _ _. rewrite !mmul_sandwich_entry. apply bil_sym. exact Hs.
Qed.

Lemma sym_madd (n : nat) (A B : Mat) : sym n A -> sym n B -> sym n (madd A B).
Proof. intros HA HB i j Hi Hj. unfold madd. rewrite HA, HB by assumption. reflexivity. Qed.

Lemma psd_diag (n : nat) (P : Mat) (i : nat) :
  psd n P -> (i < n)%nat -> 0 <= P i i.
Proof.
  intros Hp Hi. specialize (Hp (fun k => ident i k)).
  unfold quad, bil in Hp. rewrite sumn_ident_l in Hp by exact Hi.
  unfold mv in Hp.
  rewrite (sumn_ext n _ (fun k => P i k * ident k i)) in Hp
    by (intros k _; unfold ident; rewrite Nat.eqb_sym; reflexivity).
  rewrite sumn_ident_r in Hp by exact Hi. exact Hp.
Qed.

(* ================================================================== *)
(** ** Prediction of the state: the two branches *)

Lemma predict_state_straight (dt w : R) (x : Vec) :
  Rabs w < eps_yaw ->
  predict_state dt w x 0%nat = x 0%nat + x 3%nat * dt * cos (x 2%nat) /\
  predict_state dt w x 1%nat = x 1%nat + x 3%nat * dt * sin (x 2%nat) /\
  predict_state dt w x 2%nat = x 2%nat /\
  predict_state dt w x 3%nat = x 3%nat /\
  predict_state dt w x 4%nat = yaw_clamp.
Proof.
  intros Hw. unfold predict_state.
  destruct (Rlt_dec (Rabs w) eps_yaw) as [_|n]; [|contradiction].
  unfold vset; simpl; repeat split; reflexivity.
Qed.

Lemma predict_state_turn (dt w : R) (x : Vec) :
  ~ Rabs w < eps_yaw ->
  predict_state dt w x 0%nat
    = x 0%nat + (x 3%nat / x 4%nat) * (sin (x 4%nat * dt + x 2%nat) - sin (x 2%nat)) /\
  predict_state dt w x 1%nat
    = x 1%nat + (x 3%nat / x 4%nat) * (- cos (x 4%nat * dt + x 2%nat) + cos (x 2%nat)) /\
  predict_state dt w x 2%nat = wrap (x 2%nat + x 4%nat * dt) /\
  predict_state dt w x 3%nat = x 3%nat /\
  predict_state dt w x 4%nat = x 4%nat.
Proof.
  intros Hw. unfold predict_state.
  destruct (Rlt_dec (Rabs w) eps_yaw) as [y|_]; [contradiction|].
  unfold vset, wrap; simpl; repeat split; reflexivity.
Qed.

Lemma predict_state_high (i : nat) (dt w : R) (x : Vec) :
  (5 <= i)%nat -> predict_state dt w x i = x i.
Proof.
  intros Hi. unfold predict_state, vset.
  destruct (Rlt_dec (Rabs w) eps_yaw);
    repeat (rewrite (proj2 (Nat.eqb_neq i _)) by lia); reflexivity.
Qed.

Lemma eps_yaw_pos : 0 < eps_yaw.
Proof. unfold eps_yaw; lra. Qed.

Lemma yaw_clamp_pos : 0 < yaw_clamp.
Proof. unfold yaw_clamp; lra. Qed.

(** A state whose yaw-rate component is [1] rad/s, far above the
    threshold, met on a step whose yaw-rate sample is [0]. *)
Lemma turning_state_straight_sample :
  predict_state dt_nb 0 (vec5 0 0 0 1 1) 4%nat = yaw_clamp.
Proof.
  apply predict_state_straight. rewrite Rabs_R0. exact eps_yaw_pos.
Qed.

(** A state whose yaw-rate component [1e-5] is below the threshold, met
    on a step whose yaw-rate sample is [1]. *)
Lemma straight_state_turning_sample :
  predict_state dt_nb 1 (vec5 0 0 0 1 (1 / 100000)) 4%nat = 1 / 100000.
Proof.
  apply predict_state_turn. rewrite Rabs_R1. unfold eps_yaw; lra.
Qed.

(* ================================================================== *)
(** ** C1: the turning branch *)

(** C1 (as stated, refuted): "for every state with |ψ̇| ≥ ε the predict
    step produces the CTRV arc equations and keeps ψ̇".  The branch is
    chosen by the step's yaw-rate sample, not by the state's [x[4]]: the
    state [(0,0,0,1,1)] met with a sample [0] takes the straight branch and
    its yaw rate becomes [1e-7]. *)
Lemma C1_counterexample :
  ~ (forall (dt w : R) (x : Vec), Rabs (x 4%nat) >= eps_yaw ->
       predict_state dt w x 0%nat
         = x 0%nat + (x 3%nat / x 4%nat) * (sin (x 4%nat * dt + x 2%nat) - sin (x 2%nat)) /\
       predict_state dt w x 1%nat
         = x 1%nat + (x 3%nat / x 4%nat) * (- cos (x 4%nat * dt + x 2%nat) + cos (x 2%nat)) /\
       predict_state dt w x 2%nat = pymod (x 2%nat + x 4%nat * dt + PI) (2 * PI) - PI /\
       predict_state dt w x 3%nat = x 3%nat /\
       predict_state dt w x 4%nat = x 4%nat).
Proof.
  intros H.
  destruct (H dt_nb 0 (vec5 0 0 0 1 1)) as (_ & _ & _ & _ & H4).
  - simpl. rewrite Rabs_R1. unfold eps_yaw; lra.
  - rewrite turning_state_straight_sample in H4. simpl in H4.
    unfold yaw_clamp in H4; lra.
Qed.

(** C1 (amended): on a step whose yaw-rate sample [yawrate[k]] has
    magnitude at least [1e-4], the predict step applies the CTRV arc
    equations to the state [(x, y, ψ, v, ψ̇)]: [x' = x + (v/ψ̇)(sin(ψ̇dt+ψ) - sin ψ)],
    [y' = y + (v/ψ̇)(-cos(ψ̇dt+ψ) + cos ψ)], [ψ' = ((ψ + ψ̇dt + π) mod 2π) - π],
    [v' = v], [ψ̇' = ψ̇]. *)
Theorem C1_turning_branch (dt w : R) (x : Vec) :
  Rabs w >= eps_yaw ->
  predict_state dt w x 0%nat
    = x 0%nat + (x 3%nat / x 4%nat) * (sin (x 4%nat * dt + x 2%nat) - sin (x 2%nat)) /\
  predict_state dt w x 1%nat
    = x 1%nat + (x 3%nat / x 4%nat) * (- cos (x 4%nat * dt + x 2%nat) + cos (x 2%nat)) /\
  predict_state dt w x 2%nat = pymod (x 2%nat + x 4%nat * dt + PI) (2 * PI) - PI /\
  predict_state dt w x 3%nat = x 3%nat /\
  predict_state dt w x 4%nat = x 4%nat.
Proof.
  intros Hw.
  destruct (predict_state_turn dt w x) as (H0 & H1 & H2 & H3 & H4); [lra|].
  repeat split; assumption.
Qed.

Lemma C1_turning_branch_witness :
  Rabs 1 >= eps_yaw /\ predict_state dt_nb 1 (vec5 0 0 0 10 (1/10)) 4%nat = 1 / 10.
Proof.
  split.
  - rewrite Rabs_R1. unfold eps_yaw; lra.
  - apply (C1_turning_branch dt_nb 1 (vec5 0 0 0 10 (1/10))).
    rewrite Rabs_R1. unfold eps_yaw; lra.
Defined.

(* ================================================================== *)
(** ** C4: the straight branch *)

(** C4 (as stated, refuted): "for every state with |ψ̇| < ε the predict
    step advances linearly and sets ψ̇ to 1e-7".  The state
    [(0,0,0,1,1e-5)] met with a yaw-rate sample [1] takes the turning
    branch and keeps its yaw rate [1e-5]. *)
Lemma C4_counterexample :
  ~ (forall (dt w : R) (x : Vec), Rabs (x 4%nat) < eps_yaw ->
       predict_state dt w x 0%nat = x 0%nat + x 3%nat * dt * cos (x 2%nat) /\
       predict_state dt w x 1%nat = x 1%nat + x 3%nat * dt * sin (x 2%nat) /\
       predict_state dt w x 2%nat = x 2%nat /\
       predict_state dt w x 3%nat = x 3%nat /\
       predict_state dt w x 4%nat = 1 / 10000000).
Proof.
  intros H.
  destruct (H dt_nb 1 (vec5 0 0 0 1 (1 / 100000))) as (_ & _ & _ & _ & H4).
  - simpl. rewrite Rabs_right by lra. unfold eps_yaw; lra.
  - rewrite straight_state_turning_sample in H4. lra.
Qed.

(** C4 (amended): on a step whose yaw-rate sample [yawrate[k]] has
    magnitude below [1e-4], the predict step sets
    [x' = x + v·dt·cos ψ], [y' = y + v·dt·sin ψ], leaves heading and speed
    unchanged, and sets the yaw-rate component to exactly [1e-7] whatever
    its prior value. *)
Theorem C4_straight_branch (dt w : R) (x : Vec) :
  Rabs w < eps_yaw ->
  predict_state dt w x 0%nat = x 0%nat + x 3%nat * dt * cos (x 2%nat) /\
  predict_state dt w x 1%nat = x 1%nat + x 3%nat * dt * sin (x 2%nat) /\
  predict_state dt w x 2%nat = x 2%nat /\
  predict_state dt w x 3%nat = x 3%nat /\
  predict_state dt w x 4%nat = 1 / 10000000.
Proof.
  intros Hw. exact (predict_state_straight dt w x Hw).
Qed.

Lemma C4_straight_branch_witness :
  Rabs 0 < eps_yaw /\ predict_state dt_nb 0 (vec5 0 0 0 10 5) 4%nat = 1 / 10000000.
Proof.
  split.
  - rewrite Rabs_R0. exact eps_yaw_pos.
  - apply (C4_straight_branch dt_nb 0 (vec5 0 0 0 10 5)).
    rewrite Rabs_R0. exact eps_yaw_pos.
Defined.

(* ================================================================== *)
(** ** C6: what selects the regime *)

(** C6 (as stated, refuted): "predict is a function of the state and dt
    only, the regime being chosen by the state's own yaw rate".  With the
    same state [(0,0,0,1,1e-5)] and the same [dt], the samples [0] and [1]
    give different predicted states. *)
Lemma C6_counterexample :
  ~ (forall (dt w1 w2 : R) (x : Vec), predict_state dt w1 x = predict_state dt w2 x).
Proof.
  intros H.
  pose proof (f_equal (fun v => v 4%nat) (H dt_nb 0 1 (vec5 0 0 0 1 (1 / 100000)))) as E.
  simpl in E. rewrite straight_state_turning_sample in E.
  rewrite (proj2 (proj2 (proj2 (proj2 (predict_state_straight dt_nb 0 _
             ltac:(rewrite Rabs_R0; exact eps_yaw_pos)))))) in E.
  unfold yaw_clamp in E. lra.
Qed.

(** C6 (amended): the regime is selected by comparing the magnitude of the
    step's raw yaw-rate sample [yawrate[k]] (not the state's yaw-rate
    component) against [1e-4]: for every state [x], whatever its [x[4]],
    a sample below [1e-4] gives the straight-line step and any other sample
    the turning step (whose position update divides by [x[4]], so it is
    stated for [x[4] <> 0]).  The predicted state depends on [x], [dt] and
    that sample, and on the sample only through this comparison. *)
Theorem C6_regime_by_sample (dt w : R) (x : Vec) :
  (Rabs w < eps_yaw ->
     predict_state dt w x 0%nat = x 0%nat + x 3%nat * dt * cos (x 2%nat) /\
     predict_state dt w x 1%nat = x 1%nat + x 3%nat * dt * sin (x 2%nat) /\
     predict_state dt w x 2%nat = x 2%nat /\
     predict_state dt w x 3%nat = x 3%nat /\
     predict_state dt w x 4%nat = yaw_clamp) /\
  (~ Rabs w < eps_yaw ->
     (x 4%nat <> 0 ->
        predict_state dt w x 0%nat
          = x 0%nat + (x 3%nat / x 4%nat) * (sin (x 4%nat * dt + x 2%nat) - sin (x 2%nat)) /\
        predict_state dt w x 1%nat
          = x 1%nat + (x 3%nat / x 4%nat) * (- cos (x 4%nat * dt + x 2%nat) + cos (x 2%nat))) /\
     predict_state dt w x 2%nat = wrap (x 2%nat + x 4%nat * dt) /\
     predict_state dt w x 3%nat = x 3%nat /\
     predict_state dt w x 4%nat = x 4%nat) /\
  (forall w' : R, (Rabs w < eps_yaw <-> Rabs w' < eps_yaw) ->
     predict_state dt w x = predict_state dt w' x).
Proof.
  split; [|split].
  - intros Hw. exact (predict_state_straight dt w x Hw).
  - intros Hw. destruct (predict_state_turn dt w x Hw) as (E0 & E1 & E2 & E3 & E4).
    split; [intros _; split; assumption|]. split; [exact E2|]. split; assumption.
  - intros w' Hiff. unfold predict_state.
    destruct (Rlt_dec (Rabs w) eps_yaw) as [h1|h1];
    destruct (Rlt_dec (Rabs w') eps_yaw) as [h2|h2]; try reflexivity; tauto.
Qed.

(** The state [(0,0,0,1,1)], whose own yaw rate is far above [1e-4], met
    with the sample [0]: the straight step, with yaw rate [1e-7]; and the
    samples [0] and [1e-5] give the same prediction. *)
Lemma C6_regime_by_sample_witness :
  (Rabs 0 < eps_yaw /\ (Rabs 0 < eps_yaw <-> Rabs (1 / 100000) < eps_yaw)) /\
  predict_state dt_nb 0 (vec5 0 0 0 1 1) 4%nat = yaw_clamp /\
  predict_state dt_nb 0 (vec5 0 0 0 1 1) = predict_state dt_nb (1 / 100000) (vec5 0 0 0 1 1).
Proof.
  assert (H0 : Rabs 0 < eps_yaw) by (rewrite Rabs_R0; exact eps_yaw_pos).
  assert (H : Rabs 0 < eps_yaw <-> Rabs (1 / 100000) < eps_yaw).
  { rewrite Rabs_R0, (Rabs_right (1 / 100000)) by lra. unfold eps_yaw; lra. }
  split; [split; assumption|]. split.
  - exact (proj2 (proj2 (proj2 (proj2 (proj1 (C6_regime_by_sample dt_nb 0 (vec5 0 0 0 1 1)) H0))))).
  - exact (proj2 (proj2 (C6_regime_by_sample dt_nb 0 (vec5 0 0 0 1 1))) (1 / 100000) H).
Defined.

(* ================================================================== *)
(** ** C5: range of the heading *)

Lemma pymod_range (a b : R) : 0 < b -> 0 <= pymod a b < b.
Proof.
  intros Hb. unfold pymod.
  destruct (base_Int_part (a / b)) as [Hle Hgt].
  set (n := IZR (Int_part (a / b))) in *.
  assert (E : a = b * (a / b)) by (field; lra).
  split.
  - assert (b * n <= b * (a / b)) by (apply Rmult_le_compat_l; lra). lra.
  - assert (b * (a / b) < b * (n + 1)) by (apply Rmult_lt_compat_l; lra). lra.
Qed.

Lemma wrap_range (a : R) : -PI <= wrap a < PI.
Proof.
  unfold wrap. pose proof PI_RGT_0.
  pose proof (pymod_range (a + PI) (2 * PI) ltac:(lra)). lra.
Qed.

Lemma wrap_PI : wrap PI = - PI.
Proof.
  unfold wrap, pymod. pose proof PI_RGT_0.
  replace ((PI + PI) / (2 * PI)) with 1 by (field; lra).
  rewrite <- (Int_part_spec 1 1) by lra. lra.
Qed.

(** C5 (as stated, refuted): "the heading after every predict step, and
    wrap(a) = ((a+π) mod 2π) − π for every real a, lie in (−π, π]".  The
    source's [%] is Python's floor modulo, so [wrap π = −π], outside
    (−π, π]. *)
Lemma C5_counterexample :
  ~ ((forall (dt w : R) (x : Vec),
        - PI < predict_state dt w x 2%nat <= PI) /\
     (forall a : R, - PI < wrap a <= PI)).
Proof.
  intros [_ H]. destruct (H PI) as [H1 _]. rewrite wrap_PI in H1. lra.
Qed.

(** C5 (amended): [wrap a = ((a+π) mod 2π) − π] lies in [−π, π) for every
    real [a], and every odd multiple [(2n+1)·π] maps to −π; the turning branch sets the
    heading to [wrap (ψ + ψ̇·dt)], hence in [−π, π); the straight branch
    applies no wrap and leaves the heading unchanged. *)
Theorem C5_heading_range :
  (forall a : R, - PI <= wrap a < PI) /\
  (forall n : Z, wrap ((2 * IZR n + 1) * PI) = - PI) /\
  (forall (dt w : R) (x : Vec), Rabs w >= eps_yaw ->
     predict_state dt w x 2%nat = wrap (x 2%nat + x 4%nat * dt) /\
     - PI <= predict_state dt w x 2%nat < PI) /\
  (forall (dt w : R) (x : Vec), Rabs w < eps_yaw ->
     predict_state dt w x 2%nat = x 2%nat).
Proof.
  split; [exact wrap_range|]. split; [|split].
  - intros n. unfold wrap, pymod. pose proof PI_RGT_0.
    replace (((2 * IZR n + 1) * PI + PI) / (2 * PI)) with (IZR (n + 1))
      by (rewrite plus_IZR; simpl; field; lra).
    rewrite <- (Int_part_spec (IZR (n + 1)) (n + 1)) by lra.
    rewrite plus_IZR. simpl. ring.
  - intros dt w x Hw.
    destruct (predict_state_turn dt w x) as (_ & _ & H2 & _); [lra|].
    rewrite H2. split; [reflexivity|apply wrap_range].
  - intros dt w x Hw. apply (predict_state_straight dt w x Hw).
Qed.

(** The spec's example ψ = 3.0, ψ̇ = 2.0, dt = 1.0 on a turning step, and
    a straight step keeping the heading 4.0. *)
Lemma C5_heading_range_witness :
  - PI <= predict_state 1 2 (vec5 0 0 3 1 2) 2%nat < PI /\
  predict_state 1 0 (vec5 0 0 4 1 2) 2%nat = 4 /\
  wrap ((2 * IZR 1 + 1) * PI) = - PI.
Proof.
  split; [|split].
  - apply (proj2 (proj1 (proj2 (proj2 C5_heading_range)) 1 2 (vec5 0 0 3 1 2)
                    ltac:(rewrite Rabs_right by lra; unfold eps_yaw; lra))).
  - apply (proj2 (proj2 (proj2 C5_heading_range)) 1 0 (vec5 0 0 4 1 2)).
    rewrite Rabs_R0. exact eps_yaw_pos.
  - exact (proj1 (proj2 C5_heading_range) 1%Z).
Defined.

(* ================================================================== *)
(** ** C2: the Jacobian used to propagate P *)

Lemma JA_of_ext (dt : R) (x y : Vec) :
  x 2%nat = y 2%nat -> x 3%nat = y 3%nat -> x 4%nat = y 4%nat ->
  JA_of dt x = JA_of dt y.
Proof.
  intros H2 H3 H4. unfold JA_of, a13, a14, a15, a23, a24, a25.
  rewrite H2, H3, H4. reflexivity.
Qed.

Lemma predict_parts (c : config) (w : R) (x : Vec) (P : Mat) :
  predict c w x P =
  (predict_state (cfg_dt c) w x,
   JA_of (cfg_dt c) (predict_state (cfg_dt c) w x),
   predict_cov (JA_of (cfg_dt c) (predict_state (cfg_dt c) w x)) P (cfg_Q c)).
Proof. reflexivity. Qed.

Lemma Int_part_three_quarters : Int_part (3 / 4) = 0%Z.
Proof. symmetry. apply Int_part_spec. simpl. lra. Qed.

(** The turning step from heading 0 with speed 1 and yaw rate 25π, so
    that ψ̇·dt = π/2 at dt = 1/50: the heading it writes is π/2. *)
Lemma quarter_turn_heading :
  predict_state dt_nb 1 (vec5 0 0 0 1 (25 * PI)) 2%nat = PI / 2.
Proof.
  destruct (predict_state_turn dt_nb 1 (vec5 0 0 0 1 (25 * PI))) as (_ & _ & H & _).
  { rewrite Rabs_R1. unfold eps_yaw; lra. }
  rewrite H. simpl. unfold wrap, pymod, dt_nb. pose proof PI_RGT_0.
  replace ((0 + 25 * PI * (1 / 50) + PI) / (2 * PI)) with (3 / 4) by (field; lra).
  rewrite Int_part_three_quarters. simpl. lra.
Qed.

(** C2 (as stated, refuted): "the JA used to propagate P is the Jacobian
    evaluated at the pre-update state".  The source computes [a13..a25]
    after the motion equations overwrote [x]; on the quarter-turn step its
    entry [a23] is [-1/(25π)], while at the pre-update state it is
    [1/(25π)]. *)
Lemma C2_counterexample :
  ~ (forall (c : config) (w : R) (x : Vec) (P : Mat),
       snd (fst (predict c w x P)) = JA_of (cfg_dt c) x).
Proof.
  intros H.
  pose proof (f_equal (fun A => A 1%nat 2%nat)
                (H cfg_nb 1 (vec5 0 0 0 1 (25 * PI)) P0_nb)) as E.
  rewrite predict_parts in E. simpl in E. unfold a23 in E.
  rewrite quarter_turn_heading in E.
  destruct (predict_state_turn dt_nb 1 (vec5 0 0 0 1 (25 * PI))) as (_ & _ & _ & H3 & H4).
  { rewrite Rabs_R1. unfold eps_yaw; lra. }
  rewrite H3, H4 in E. simpl in E. unfold dt_nb in E. pose proof PI_RGT_0.
  replace (25 * PI * (1 / 50) + PI / 2) with PI in E by field.
  replace (25 * PI * (1 / 50) + 0) with (PI / 2) in E by field.
  rewrite sin_PI, sin_PI2, sin_0 in E.
  assert (0 < 1 / (25 * PI)) by (apply Rdiv_lt_0_compat; lra).
  replace (1 / (25 * PI) * (0 - 1)) with (- (1 / (25 * PI))) in E by ring.
  replace (1 / (25 * PI) * (1 - 0)) with (1 / (25 * PI)) in E by ring.
  lra.
Qed.

(** C2 (amended): every step propagates P with
    [JA = [[1,0,a13,a14,a15],[0,1,a23,a24,a25],[0,0,1,0,dt],[0,0,0,1,0],[0,0,0,0,1]]]
    whose partials [a13..a25] are the turning-branch formulas in both
    branches, evaluated at the post-predict state: in the straight branch
    at the unchanged heading and speed with ψ̇ = 1e-7, in the turning
    branch at the wrapped new heading [wrap (ψ + ψ̇·dt)] with the unchanged
    v and ψ̇. *)
Theorem C2_jacobian_post_update (c : config) (w : R) (x : Vec) (P : Mat) :
  (forall x' JA P', predict c w x P = (x', JA, P') ->
     JA = JA_of (cfg_dt c) x' /\ P' = predict_cov JA P (cfg_Q c)) /\
  (Rabs w < eps_yaw ->
     snd (fst (predict c w x P))
       = JA_of (cfg_dt c) (vec5 0 0 (x 2%nat) (x 3%nat) yaw_clamp)) /\
  (Rabs w >= eps_yaw ->
     snd (fst (predict c w x P))
       = JA_of (cfg_dt c) (vec5 0 0 (wrap (x 2%nat + x 4%nat * cfg_dt c)) (x 3%nat) (x 4%nat))).
Proof.
  rewrite predict_parts. simpl. split; [|split].
  - intros x' JA P' E. inversion E; subst. split; reflexivity.
  - intros Hw. destruct (predict_state_straight (cfg_dt c) w x Hw) as (_ & _ & H2 & H3 & H4).
    apply JA_of_ext; simpl; assumption.
  - intros Hw. destruct (predict_state_turn (cfg_dt c) w x) as (_ & _ & H2 & H3 & H4); [lra|].
    apply JA_of_ext; simpl; assumption.
Qed.

Lemma C2_jacobian_post_update_witness :
  snd (fst (predict cfg_nb 0 (vec5 0 0 1 10 3) P0_nb))
    = JA_of dt_nb (vec5 0 0 1 10 yaw_clamp) /\
  snd (fst (predict cfg_nb 1 (vec5 0 0 1 10 3) P0_nb))
    = JA_of dt_nb (vec5 0 0 (wrap (1 + 3 * dt_nb)) 10 3).
Proof.
  split.
  - apply (proj1 (proj2 (C2_jacobian_post_update cfg_nb 0 (vec5 0 0 1 10 3) P0_nb))).
    rewrite Rabs_R0. exact eps_yaw_pos.
  - apply (proj2 (proj2 (C2_jacobian_post_update cfg_nb 1 (vec5 0 0 1 10 3) P0_nb))).
    rewrite Rabs_R1. unfold eps_yaw; lra.
Defined.

(* ================================================================== *)
(** ** Steps without a position fix *)

Lemma gain_none (P Si : Mat) (i j : nat) : gain P JH_none Si i j = 0.
Proof.
  unfold gain, mmul. apply sumn_zero. intros k _.
  rewrite sumn_zero; [ring|]. intros l _. unfold mtr, JH_none, mzero. ring.
Qed.

Lemma mv_gain_none (P Si : Mat) (y : Vec) (i : nat) : mv 2 (gain P JH_none Si) y i = 0.
Proof.
  unfold mv. apply sumn_zero. intros k _. rewrite gain_none. ring.
Qed.

Lemma ident_minus_gain_none (P Si : Mat) (i j : nat) :
  msub ident (mmul 2 (gain P JH_none Si) JH_none) i j = ident i j.
Proof.
  unfold msub, mmul. rewrite sumn_zero; [ring|]. intros k _. rewrite gain_none. ring.
Qed.

Lemma innov_cov_none (P Rm : Mat) (i j : nat) : innov_cov JH_none P Rm i j = Rm i j.
Proof.
  unfold innov_cov, madd, mmul. rewrite sumn_zero; [ring|]. intros k _.
  rewrite sumn_zero; [ring|]. intros l _. unfold JH_none, mzero. ring.
Qed.

Lemma correct_cov_none (P Si : Mat) :
  mat_eq 5 5 (correct_cov (gain P JH_none Si) JH_none P) P.
Proof.
  intros i j Hi _. unfold correct_cov, mmul at 1.
  rewrite <- (sumn_ident_l 5 i (fun k => P k j) Hi). apply sumn_ext. intros k _.
  rewrite ident_minus_gain_none. reflexivity.
Qed.

Lemma inv2_innov_none (P Rm : Mat) :
  det2 Rm <> 0 -> exists Si, inv2 (innov_cov JH_none P Rm) = Some Si.
Proof.
  intros Hd. unfold inv2.
  destruct (Req_EM_T (det2 (innov_cov JH_none P Rm)) 0) as [e|_]; [|eexists; reflexivity].
  exfalso. apply Hd. unfold det2 in *. rewrite !innov_cov_none in e. exact e.
Qed.

Lemma update_none (c : config) (z x : Vec) (P : Mat) :
  det2 (cfg_R c) <> 0 ->
  exists Si, update c false z x P
             = Some (vadd x (mv 2 (gain P JH_none Si) (residual z (hx_of x))),
                     correct_cov (gain P JH_none Si) JH_none P,
                     gain P JH_none Si).
Proof.
  intros Hd. destruct (inv2_innov_none P (cfg_R c) Hd) as [Si E].
  exists Si. unfold update. simpl. rewrite E. reflexivity.
Qed.

(** C10: on a step with no fix ([JH] the zero 2x5 matrix) the gain
    [K = P·JHᵀ·S⁻¹] is exactly the zero matrix for every [P] and every
    inverse [S⁻¹]; so [x + K·y = x] whatever the residual [y], and
    [I − K·JH] is exactly the identity. *)
Theorem C10_gain_zero_without_fix (P Si : Mat) (x y : Vec) :
  (forall i j, gain P JH_none Si i j = 0) /\
  (forall i, vadd x (mv 2 (gain P JH_none Si) y) i = x i) /\
  (forall i j, msub ident (mmul 2 (gain P JH_none Si) JH_none) i j = ident i j).
Proof.
  split; [|split].
  - intros i j. apply gain_none.
  - intros i. unfold vadd. rewrite mv_gain_none. ring.
  - intros i j. apply ident_minus_gain_none.
Qed.

(** C3: on a step with no position fix ([GPS[k]] false), with [R]
    invertible as configured, the step ends with the state and covariance
    of its prediction, exactly.  On a turning step the state's yaw rate
    [x[4]] is required non-zero: the turning branch and the Jacobian divide
    by it, which at [x[4] = 0] gives inf and NaN entries in numpy. *)
Theorem C3_no_fix_keeps_prediction (c : config) (w : R) (z x : Vec) (P : Mat) :
  Rabs w < eps_yaw \/ x 4%nat <> 0 ->
  det2 (cfg_R c) <> 0 ->
  match filter_step c w false z x P with
  | Some (x', P', _) =>
      (forall i, x' i = fst (fst (predict c w x P)) i) /\
      mat_eq 5 5 P' (snd (predict c w x P))
  | None => False
  end.
Proof.
  intros _ Hd. unfold filter_step. destruct (predict c w x P) as [[xp JA] Pp]. simpl.
  destruct (update_none c z xp Pp Hd) as [Si E]. rewrite E. split.
  - intros i. unfold vadd. rewrite mv_gain_none. ring.
  - apply correct_cov_none.
Qed.

Lemma det2_R_nb : det2 R_nb <> 0.
Proof. unfold det2, R_nb, diag2, varGPS. simpl. lra. Qed.

Lemma C3_no_fix_keeps_prediction_witness :
  (Rabs 0 < eps_yaw \/ vec5 0 0 1 10 0 4%nat <> 0) /\ (det2 (cfg_R cfg_nb) <> 0) /\
  match filter_step cfg_nb 0 false (vec5 3 4 0 0 0) (vec5 0 0 1 10 0) P0_nb with
  | Some (x', P', _) =>
      (forall i, x' i = fst (fst (predict cfg_nb 0 (vec5 0 0 1 10 0) P0_nb)) i) /\
      mat_eq 5 5 P' (snd (predict cfg_nb 0 (vec5 0 0 1 10 0) P0_nb))
  | None => False
  end.
Proof.
  assert (Hw : Rabs 0 < eps_yaw \/ vec5 0 0 1 10 0 4%nat <> 0)
    by (left; rewrite Rabs_R0; exact eps_yaw_pos).
  split; [exact Hw|]. split; [exact det2_R_nb|].
  apply (C3_no_fix_keeps_prediction cfg_nb 0 (vec5 3 4 0 0 0) (vec5 0 0 1 10 0) P0_nb Hw).
  exact det2_R_nb.
Defined.

(** C7 (as stated, refuted): "with no fix, z is taken as h(x), so the
    residual z − h(x) is the zero vector".  The source uses the step's
    column [measurements[:,k]] as [Z] on every step; with [Z = (1, 0)] and a
    predicted position [(0, 0)] the residual's first component is [1]. *)
Lemma C7_counterexample :
  ~ (forall (z x : Vec) (i : nat), (i < 2)%nat -> residual z (hx_of x) i = 0).
Proof.
  intros H. specialize (H (vec5 1 0 0 0 0) (vec5 0 0 0 0 0) 0%nat ltac:(lia)).
  unfold residual, vsub, hx_of in H. simpl in H. lra.
Qed.

(** C7 (amended): on a step with no fix the update still forms the
    residual [z − h(x)] from the step's column [z] of the measurement array
    (the last fix carried forward), which is in general non-zero; the
    correction [K·(z − h(x))] it adds to the state is nevertheless exactly
    zero. *)
Theorem C7_residual_without_fix (c : config) (z x : Vec) (P : Mat) :
  det2 (cfg_R c) <> 0 ->
  (residual z (hx_of x) 0%nat = z 0%nat - x 0%nat /\
   residual z (hx_of x) 1%nat = z 1%nat - x 1%nat) /\
  exists Si,
    update c false z x P
      = Some (vadd x (mv 2 (gain P JH_none Si) (residual z (hx_of x))),
              correct_cov (gain P JH_none Si) JH_none P,
              gain P JH_none Si) /\
    (forall i, mv 2 (gain P JH_none Si) (residual z (hx_of x)) i = 0).
Proof.
  intros Hd. split; [split; reflexivity|].
  destruct (update_none c z x P Hd) as [Si E]. exists Si. split; [exact E|].
  intros i. apply mv_gain_none.
Qed.

Lemma C7_residual_without_fix_witness :
  (det2 (cfg_R cfg_nb) <> 0) /\
  residual (vec5 3 4 0 0 0) (hx_of (vec5 1 1 0 0 0)) 0%nat = 3 - 1.
Proof.
  split; [exact det2_R_nb|].
  apply (proj1 (proj1 (C7_residual_without_fix cfg_nb (vec5 3 4 0 0 0) (vec5 1 1 0 0 0)
                         P0_nb det2_R_nb))).
Defined.

(* ================================================================== *)
(** ** Covariance: symmetry and positive semidefiniteness *)

Lemma tmv_ext (n : nat) (A : Mat) (u u' : Vec) (k : nat) :
  (forall i, (i < n)%nat -> u i = u' i) -> tmv n A u k = tmv n A u' k.
Proof. intros H. unfold tmv. apply sumn_ext. intros i Hi. rewrite H by exact Hi. reflexivity. Qed.

Lemma mv_ext (p : nat) (A : Mat) (w w' : Vec) (i : nat) :
  (forall j, (j < p)%nat -> w j = w' j) -> mv p A w i = mv p A w' i.
Proof. intros H. unfold mv. apply sumn_ext. intros j Hj. rewrite H by exact Hj. reflexivity. Qed.

Lemma mv_madd (p : nat) (A B : Mat) (w : Vec) (i : nat) :
  mv p (madd A B) w i = mv p A w i + mv p B w i.
Proof. unfold mv, madd. rewrite <- sumn_add. apply sumn_ext. intros; ring. Qed.

Lemma tmv_vsub (n : nat) (A : Mat) (u1 u2 : Vec) (k : nat) :
  tmv n A (vsub u1 u2) k = tmv n A u1 k - tmv n A u2 k.
Proof. unfold tmv, vsub. rewrite <- sumn_sub. apply sumn_ext. intros; ring. Qed.

Lemma tmv_msub_ident (n : nat) (X : Mat) (v : Vec) (k : nat) :
  (k < n)%nat -> tmv n (msub ident X) v k = v k - tmv n X v k.
Proof.
  intros Hk. unfold tmv, msub.
  rewrite (sumn_ext n _ (fun i => v i * ident i k - v i * X i k)) by (intros; ring).
  rewrite sumn_sub, sumn_ident_r by exact Hk. reflexivity.
Qed.

Lemma mv_ident (n : nat) (g : Vec) (a : nat) : (a < n)%nat -> mv n ident g a = g a.
Proof. intros Ha. unfold mv. apply sumn_ident_l. exact Ha. Qed.

Lemma predict_cov_sym (JA P Q : Mat) :
  sym 5 P -> sym 5 Q -> sym 5 (predict_cov JA P Q).
Proof. intros HP HQ. apply sym_madd; [apply sym_sandwich; exact HP | exact HQ]. Qed.

Lemma predict_cov_quad (JA P Q : Mat) (v : Vec) :
  quad 5 (predict_cov JA P Q) v = quad 5 P (tmv 5 JA v) + quad 5 Q v.
Proof.
  unfold predict_cov. unfold quad at 1. rewrite bil_madd. fold (quad 5 Q v).
  fold (quad 5 (mmul 5 (mmul 5 JA P) (mtr JA)) v). rewrite quad_sandwich. reflexivity.
Qed.

Lemma predict_cov_psd (JA P Q : Mat) :
  psd 5 P -> psd 5 Q -> psd 5 (predict_cov JA P Q).
Proof.
  intros HP HQ v. rewrite predict_cov_quad. pose proof (HP (tmv 5 JA v)).
  pose proof (HQ v). lra.
Qed.

Lemma innov_cov_sym (JH P Rm : Mat) :
  sym 5 P -> sym 2 Rm -> sym 2 (innov_cov JH P Rm).
Proof. intros HP HR. apply sym_madd; [apply sym_sandwich; exact HP | exact HR]. Qed.

Lemma innov_cov_quad (JH P Rm : Mat) (u : Vec) :
  quad 2 (innov_cov JH P Rm) u = quad 5 P (tmv 2 JH u) + quad 2 Rm u.
Proof.
  unfold innov_cov. unfold quad at 1. rewrite bil_madd. fold (quad 2 Rm u).
  fold (quad 2 (mmul 5 (mmul 5 JH P) (mtr JH)) u). rewrite quad_sandwich. reflexivity.
Qed.

(** What [np.linalg.inv] returns on success. *)
Lemma inv2_spec (S Si : Mat) :
  inv2 S = Some Si ->
  det2 S <> 0 /\
  (forall a b, (a < 2)%nat -> (b < 2)%nat -> mmul 2 S Si a b = ident a b) /\
  (sym 2 S -> sym 2 Si).
Proof.
  unfold inv2. destruct (Req_EM_T (det2 S) 0) as [_|nz]; [discriminate|].
  intros E. injection E as <-. split; [exact nz|split].
  - intros a b Ha Hb. unfold det2 in nz.
    destruct a as [|[|a]]; [| |lia]; destruct b as [|[|b]]; [| | lia| | |lia];
      unfold mmul, ident, det2; simpl; field; exact nz.
  - intros Hs a b Ha Hb.
    destruct a as [|[|a]]; [| |lia]; destruct b as [|[|b]]; try lia; try reflexivity.
    + rewrite (Hs 0%nat 1%nat) by lia. reflexivity.
    + rewrite (Hs 0%nat 1%nat) by lia. reflexivity.
Qed.

Lemma inv2_defined (S : Mat) : det2 S <> 0 -> inv2 S <> None.
Proof. unfold inv2. destruct (Req_EM_T (det2 S) 0); [contradiction|discriminate]. Qed.

(** A symmetric positive-definite 2x2 matrix has a positive determinant. *)
Lemma pd2_det (S : Mat) : sym 2 S -> pd 2 S -> 0 < det2 S.
Proof.
  intros Hs Hp.
  assert (Ha : 0 < S 0%nat 0%nat).
  { specialize (Hp (fun k => match k with 0%nat => 1 | _ => 0 end)).
    unfold quad, bil, mv in Hp. simpl in Hp.
    assert (E : 0 + 1 * (0 + S 0%nat 0%nat * 1 + S 0%nat 1%nat * 0)
                + 0 * (0 + S 1%nat 0%nat * 1 + S 1%nat 1%nat * 0) = S 0%nat 0%nat) by ring.
    rewrite E in Hp. apply Hp. exists 0%nat. split; [lia|simpl; lra]. }
  specialize (Hp (fun k => match k with 0%nat => S 0%nat 1%nat | 1%nat => - S 0%nat 0%nat | _ => 0 end)).
  unfold quad, bil, mv in Hp. simpl in Hp.
  rewrite <- (Hs 0%nat 1%nat) in Hp by lia.
  assert (Q : 0 < S 0%nat 0%nat * det2 S).
  { unfold det2. rewrite <- (Hs 0%nat 1%nat) by lia.
    match type of Hp with _ -> 0 < ?e => replace (S 0%nat 0%nat * _) with e by ring end.
    apply Hp. exists 1%nat. split; [lia|simpl; lra]. }
  nra.
Qed.

Lemma correct_cov_entry (K JH P : Mat) (i j : nat) :
  (i < 5)%nat ->
  correct_cov K JH P i j = P i j - mmul 5 (mmul 2 K JH) P i j.
Proof.
  intros Hi. unfold correct_cov, msub. unfold mmul at 1.
  rewrite (sumn_ext 5 _ (fun k => ident i k * P k j - mmul 2 K JH i k * P k j))
    by (intros; ring).
  rewrite sumn_sub, sumn_ident_l by exact Hi. reflexivity.
Qed.

(** [(K JH P)_ij = (JH P)_{.i}ᵀ S⁻¹ (JH P)_{.j}] for a symmetric [P]. *)
Lemma KHP_entry (P JH Si : Mat) (i j : nat) :
  sym 5 P -> (i < 5)%nat ->
  mmul 5 (mmul 2 (gain P JH Si) JH) P i j
  = bil 2 2 Si (fun b => mmul 5 JH P b i) (fun a => mmul 5 JH P a j).
Proof.
  intros Hs Hi. rewrite mmul_assoc. unfold gain. rewrite mmul_assoc.
  change (mmul 2 (mmul 5 P (mtr JH)) (mmul 2 Si (mmul 5 JH P)) i j)
    with (bil 2 2 Si (fun b => mmul 5 P (mtr JH) i b) (fun a => mmul 5 JH P a j)).
  apply bil_ext; [|reflexivity]. intros b _. unfold mmul, mtr. apply sumn_ext.
  intros l Hl. rewrite (Hs i l Hi Hl). ring.
Qed.

Lemma correct_cov_sym (P JH Si : Mat) :
  sym 5 P -> sym 2 Si -> sym 5 (correct_cov (gain P JH Si) JH P).
Proof.
  intros HP HS i j Hi Hj.
  rewrite !correct_cov_entry by assumption. rewrite !KHP_entry by assumption.
  rewrite (HP i j Hi Hj), (bil_sym 2 Si) by exact HS. reflexivity.
Qed.

(** [vᵀ (I − K JH) P v = wᵀ P w + uᵀ R u] with [u = Kᵀ v] and
    [w = v − JHᵀ u]: the correction keeps [P] positive semidefinite. *)
Lemma correct_cov_psd (P JH Rm Si : Mat) :
  sym 5 P -> psd 5 P -> psd 2 Rm -> sym 2 Si ->
  (forall a b, (a < 2)%nat -> (b < 2)%nat ->
     mmul 2 (innov_cov JH P Rm) Si a b = ident a b) ->
  psd 5 (correct_cov (gain P JH Si) JH P).
Proof.
  intros HsP HpP HpR HsSi Hinv v.
  set (K := gain P JH Si).
  set (PHt := mmul 5 P (mtr JH)).
  set (g := tmv 5 PHt v).
  set (u := tmv 2 Si g).
  set (w := fun k => v k - tmv 2 JH u k).
  (* u is K.T v *)
  assert (Hu : forall a, tmv 5 K v a = u a).
  { intros a. unfold K, gain. rewrite tmv_mmul. reflexivity. }
  (* the quadratic form of the corrected covariance is bil P w v *)
  assert (E1 : quad 5 (correct_cov K JH P) v = bil 5 5 P w v).
  { unfold quad, correct_cov. rewrite bil_mmul_l. apply bil_ext; [|reflexivity].
    intros k Hk. rewrite tmv_msub_ident by exact Hk. rewrite tmv_mmul.
    unfold w. f_equal. apply tmv_ext. intros a _. apply Hu. }
  (* split v = w + JH.T u *)
  assert (E2 : bil 5 5 P w v = bil 5 5 P w w + bil 5 5 P w (tmv 2 JH u)).
  { rewrite <- bil_vadd_r. apply bil_ext; [reflexivity|]. intros j _.
    unfold vadd, w. ring. }
  (* S u = g *)
  assert (HSu : forall a, (a < 2)%nat -> mv 2 (innov_cov JH P Rm) u a = g a).
  { intros a Ha.
    rewrite (mv_ext 2 _ u (mv 2 Si g)) by (intros b Hb; unfold u; symmetry; apply mv_sym; assumption).
    rewrite <- mv_mmul.
    unfold mv at 1. rewrite (sumn_ext 2 _ (fun b => ident a b * g b))
      by (intros b Hb; rewrite Hinv by assumption; reflexivity).
    apply sumn_ident_l. exact Ha. }
  (* (JH P w)_a = (R u)_a *)
  assert (HPw : forall a, (a < 2)%nat -> tmv 5 PHt w a = mv 2 Rm u a).
  { intros a Ha.
    rewrite (tmv_ext 5 PHt w (vsub v (tmv 2 JH u))) by reflexivity.
    rewrite tmv_vsub. fold g.
    assert (Ehph : tmv 5 PHt (tmv 2 JH u) a
                   = mv 2 (mmul 5 (mmul 5 JH P) (mtr JH)) u a).
    { unfold PHt. rewrite tmv_mmul, tmv_mtr.
      rewrite mv_mmul, mv_mmul. apply mv_ext. intros k Hk.
      rewrite <- mv_sym by assumption. apply mv_ext. intros l _.
      rewrite mv_mtr. reflexivity. }
    rewrite Ehph. rewrite <- (HSu a Ha). unfold innov_cov. rewrite mv_madd. ring. }
  assert (E3 : bil 5 5 P w (tmv 2 JH u) = quad 2 Rm u).
  { rewrite (bil_ext 5 5 P w w (tmv 2 JH u) (mv 2 (mtr JH) u))
      by (intros; first [reflexivity | symmetry; apply mv_mtr]).
    rewrite <- bil_mmul_r. fold PHt. rewrite bil_tmv. unfold quad, bil.
    apply sumn_ext. intros a Ha. rewrite HPw by exact Ha. ring. }
  rewrite E1, E2, E3. pose proof (HpP w). pose proof (HpR u). unfold quad in *. lra.
Qed.

Lemma update_cov_inv (c : config) (gps_k : bool) (z x x' : Vec) (P P' K : Mat) :
  sym 5 P -> psd 5 P -> sym 2 (cfg_R c) -> psd 2 (cfg_R c) ->
  update c gps_k z x P = Some (x', P', K) -> sym 5 P' /\ psd 5 P'.
Proof.
  intros HsP HpP HsR HpR. unfold update.
  destruct (inv2 (innov_cov (JH_of gps_k) P (cfg_R c))) as [Si|] eqn:E; [|discriminate].
  intros H. injection H as _ <- _.
  destruct (inv2_spec _ _ E) as (_ & Hinv & Hsym).
  pose proof (Hsym (innov_cov_sym (JH_of gps_k) P (cfg_R c) HsP HsR)) as HsSi.
  split.
  - apply correct_cov_sym; assumption.
  - apply (correct_cov_psd P (JH_of gps_k) (cfg_R c) Si); assumption.
Qed.

Lemma update_defined (c : config) (gps_k : bool) (z x : Vec) (P : Mat) :
  sym 2 (innov_cov (JH_of gps_k) P (cfg_R c)) ->
  pd 2 (innov_cov (JH_of gps_k) P (cfg_R c)) ->
  update c gps_k z x P <> None.
Proof.
  intros Hs Hp. pose proof (pd2_det _ Hs Hp) as Hd. unfold update.
  destruct (inv2 (innov_cov (JH_of gps_k) P (cfg_R c))) eqn:E; [discriminate|].
  assert (Hn : det2 (innov_cov (JH_of gps_k) P (cfg_R c)) <> 0) by lra.
  exfalso. exact (inv2_defined _ Hn E).
Qed.

Lemma innov_cov_pd (JH P Rm : Mat) : psd 5 P -> pd 2 Rm -> pd 2 (innov_cov JH P Rm).
Proof.
  intros HP HR u Hu. rewrite innov_cov_quad. pose proof (HP (tmv 2 JH u)).
  pose proof (HR u Hu). lra.
Qed.

Section Loop.
Variable c : config.
Hypothesis HsQ : sym 5 (cfg_Q c).
Hypothesis HpQ : psd 5 (cfg_Q c).
Hypothesis HsR : sym 2 (cfg_R c).
Hypothesis HdR : pd 2 (cfg_R c).

Lemma pd_psd2 : psd 2 (cfg_R c).
Proof.
  intros u. destruct (Req_EM_T (u 0%nat) 0) as [e0|n0].
  - destruct (Req_EM_T (u 1%nat) 0) as [e1|n1].
    + unfold quad, bil, mv. simpl. rewrite e0, e1. lra.
    + apply Rlt_le, HdR. exists 1%nat. split; [lia|exact n1].
  - apply Rlt_le, HdR. exists 0%nat. split; [lia|exact n0].
Qed.

Lemma run_with_JA_inv (ins : list (step_input * Mat)) :
  forall (x : Vec) (P : Mat), sym 5 P -> psd 5 P ->
  exists x' P', run_with_JA c ins x P = Some (x', P') /\ sym 5 P' /\ psd 5 P'.
Proof.
  induction ins as [|[i JA] rest IH]; intros x P HsP HpP.
  - exists x, P. simpl. auto.
  - simpl.
    set (xp := predict_state (cfg_dt c) (in_yawrate i) x).
    set (Pp := predict_cov JA P (cfg_Q c)).
    assert (HsPp : sym 5 Pp) by (apply predict_cov_sym; assumption).
    assert (HpPp : psd 5 Pp) by (apply predict_cov_psd; assumption).
    destruct (update c (in_gps i) (in_z i) xp Pp) as [[[x1 P1] K1]|] eqn:E.
    + destruct (update_cov_inv c (in_gps i) (in_z i) xp x1 Pp P1 K1 HsPp HpPp HsR pd_psd2 E)
        as [Hs1 Hp1].
      apply IH; assumption.
    + exfalso. revert E. apply update_defined.
      * apply innov_cov_sym; assumption.
      * apply innov_cov_pd; assumption.
Qed.
End Loop.

(** One step of the loop is the step of [run_with_JA] whose Jacobian is
    [JA_of dt] of the predicted state. *)
Lemma filter_step_with_JA (c : config) (w : R) (gps_k : bool) (z x : Vec) (P : Mat) :
  filter_step c w gps_k z x P =
  update c gps_k z (predict_state (cfg_dt c) w x)
         (predict_cov (JA_of (cfg_dt c) (predict_state (cfg_dt c) w x)) P (cfg_Q c)).
Proof. reflexivity. Qed.

(** The notebook's [Q], [R] and initial [P]. *)
Lemma sym_diag5 (a b c d e : R) : sym 5 (diag5 a b c d e).
Proof.
  intros i j _ _.
  destruct i as [|[|[|[|[|i]]]]], j as [|[|[|[|[|j]]]]]; reflexivity.
Qed.

Lemma quad_diag5 (a b c d e : R) (v : Vec) :
  quad 5 (diag5 a b c d e) v
  = a * v 0%nat ^ 2 + b * v 1%nat ^ 2 + c * v 2%nat ^ 2 + d * v 3%nat ^ 2 + e * v 4%nat ^ 2.
Proof. unfold quad, bil, mv. simpl. ring. Qed.

Lemma psd_diag5 (a b c d e : R) :
  0 <= a -> 0 <= b -> 0 <= c -> 0 <= d -> 0 <= e -> psd 5 (diag5 a b c d e).
Proof.
  intros. intros v. rewrite quad_diag5.
  pose proof (pow2_ge_0 (v 0%nat)). pose proof (pow2_ge_0 (v 1%nat)).
  pose proof (pow2_ge_0 (v 2%nat)). pose proof (pow2_ge_0 (v 3%nat)).
  pose proof (pow2_ge_0 (v 4%nat)). nra.
Qed.

Lemma sym_diag2 (a b : R) : sym 2 (diag2 a b).
Proof. intros i j _ _. destruct i as [|[|i]], j as [|[|j]]; reflexivity. Qed.

Lemma quad_diag2 (a b : R) (u : Vec) :
  quad 2 (diag2 a b) u = a * u 0%nat ^ 2 + b * u 1%nat ^ 2.
Proof. unfold quad, bil, mv. simpl. ring. Qed.

Lemma pd_diag2 (a b : R) : 0 < a -> 0 < b -> pd 2 (diag2 a b).
Proof.
  intros Ha Hb u (i & Hi & Hu). rewrite quad_diag2.
  pose proof (pow2_ge_0 (u 0%nat)). pose proof (pow2_ge_0 (u 1%nat)).
  destruct i as [|[|i]]; [| |lia].
  - pose proof (Rsqr_pos_lt _ Hu). unfold Rsqr in *. nra.
  - pose proof (Rsqr_pos_lt _ Hu). unfold Rsqr in *. nra.
Qed.

Lemma cfg_nb_Q : sym 5 (cfg_Q cfg_nb) /\ psd 5 (cfg_Q cfg_nb).
Proof.
  split; [apply sym_diag5|]. simpl. unfold Q_nb.
  apply psd_diag5; apply pow2_ge_0.
Qed.

Lemma cfg_nb_R : sym 2 (cfg_R cfg_nb) /\ pd 2 (cfg_R cfg_nb).
Proof.
  split; [apply sym_diag2|]. simpl. unfold R_nb, varGPS.
  apply pd_diag2; lra.
Qed.

Lemma P0_nb_ok : sym 5 P0_nb /\ psd 5 P0_nb.
Proof. split; [apply sym_diag5 | apply psd_diag5; lra]. Qed.

(** With that degenerate [R], a step with a position fix still inverts
    [S = JH·P·JHᵀ + R], which is the position block of the predicted
    covariance. *)
Lemma degenerate_R_fix_step_defined :
  filter_step cfg_degenerate 0 true (vec5 0 0 0 0 0) (vec5 0 0 0 1 0) P0_nb <> None.
Proof.
  unfold filter_step. rewrite predict_parts.
  set (xp := predict_state (cfg_dt cfg_degenerate) 0 (vec5 0 0 0 1 0)).
  set (JA := JA_of (cfg_dt cfg_degenerate) xp).
  destruct P0_nb_ok as [HsP HpP]. destruct cfg_nb_Q as [HsQ HpQ].
  apply update_defined.
  - apply innov_cov_sym; [apply predict_cov_sym; assumption | apply sym_diag2].
  - intros u (i & Hi & Hu).
    rewrite innov_cov_quad, predict_cov_quad.
    set (y := tmv 2 (JH_of true) u).
    assert (Y0 : y 0%nat = u 0%nat) by (unfold y, tmv; simpl; ring).
    assert (Y1 : y 1%nat = u 1%nat) by (unfold y, tmv; simpl; ring).
    pose proof (HpP (tmv 5 JA y)) as H1.
    change (cfg_Q cfg_degenerate) with Q_nb. change (cfg_R cfg_degenerate) with (diag2 0 0).
    unfold Q_nb. rewrite quad_diag5, quad_diag2, Y0, Y1.
    assert (Hs : 0 < sGPS ^ 2) by (unfold sGPS, dt_nb; lra).
    pose proof (pow2_ge_0 (u 0%nat)). pose proof (pow2_ge_0 (u 1%nat)).
    pose proof (pow2_ge_0 (y 2%nat)). pose proof (pow2_ge_0 (y 3%nat)).
    pose proof (pow2_ge_0 (y 4%nat)).
    pose proof (pow2_ge_0 sCourse). pose proof (pow2_ge_0 sVelocity). pose proof (pow2_ge_0 sYaw).
    assert (Hpos : 0 < u 0%nat ^ 2 \/ 0 < u 1%nat ^ 2).
    { destruct i as [|[|i]]; [left | right | lia];
        pose proof (Rsqr_pos_lt _ Hu); unfold Rsqr in *; nra. }
    assert (0 <= sCourse ^ 2 * y 2%nat ^ 2) by (apply Rmult_le_pos; assumption).
    assert (0 <= sVelocity ^ 2 * y 3%nat ^ 2) by (apply Rmult_le_pos; assumption).
    assert (0 <= sYaw ^ 2 * y 4%nat ^ 2) by (apply Rmult_le_pos; assumption).
    destruct Hpos; nra.
Qed.

(** C8: for every initial covariance [P] that is symmetric and positive
    semidefinite (so with a non-negative diagonal), every sequence of
    steps of the loop, each a prediction [P ← JA·P·JAᵀ + Q] with an
    arbitrary real Jacobian [JA] followed by a correction
    [P ← (I − K·JH)·P] with the notebook's [Q] and [R], runs without
    failing and leaves [P] symmetric, positive semidefinite and with a
    non-negative diagonal, in exact arithmetic. *)
Theorem C8_covariance_invariant (ins : list (step_input * Mat)) (x : Vec) (P0 : Mat) :
  sym 5 P0 -> psd 5 P0 ->
  exists x' P', run_with_JA cfg_nb ins x P0 = Some (x', P') /\
    sym 5 P' /\ (forall i, (i < 5)%nat -> 0 <= P' i i) /\ psd 5 P'.
Proof.
  intros HsP HpP.
  destruct cfg_nb_Q as [HsQ HpQ]. destruct cfg_nb_R as [HsR HdR].
  destruct (run_with_JA_inv cfg_nb HsQ HpQ HsR HdR ins x P0 HsP HpP) as (x' & P' & E & Hs & Hp).
  exists x', P'. split; [exact E|]. split; [exact Hs|]. split; [|exact Hp].
  intros i Hi. apply (psd_diag 5 P' i Hp Hi).
Qed.

(** Two steps from the notebook's initial [P], a fix then no fix, with the
    Jacobians [JA_of dt] of the turning state [(0,0,0,10,1/10)] and the
    identity. *)
Lemma C8_covariance_invariant_witness :
  (sym 5 P0_nb /\ psd 5 P0_nb) /\
  exists x' P',
    run_with_JA cfg_nb
      [(mkInput 1 true (vec5 1 2 0 0 0), JA_of dt_nb (vec5 0 0 0 10 (1 / 10)));
       (mkInput 0 false (vec5 1 2 0 0 0), ident)]
      (vec5 0 0 0 10 (1 / 10)) P0_nb = Some (x', P') /\
    sym 5 P' /\ (forall i, (i < 5)%nat -> 0 <= P' i i) /\ psd 5 P'.
Proof.
  split; [exact P0_nb_ok|].
  apply C8_covariance_invariant; apply P0_nb_ok.
Defined.

(** C9 (as stated, refuted): "with a degenerate [R] (a zero variance on
    the diagonal) the inversion of [S] fails and the step raises".  On a
    step with a position fix, [S] is the position block of the predicted
    covariance plus [R]; with [R = 0] and the notebook's initial [P] the
    step succeeds. *)
Lemma C9_counterexample :
  ~ (forall (c : config) (w : R) (gps_k : bool) (z x : Vec) (P : Mat),
       cfg_R c 0%nat 0%nat = 0 -> filter_step c w gps_k z x P = None).
Proof.
  intros H. apply degenerate_R_fix_step_defined. apply H. reflexivity.
Qed.

(** C9 (amended): on a step without a fix [S = R] exactly, so
    [np.linalg.inv(S)] raises, and the step fails, exactly when [R] is
    singular; for a symmetric positive-definite [R] and a symmetric
    positive-semidefinite [P] the inversion succeeds on every step, with
    or without a fix. *)
Theorem C9_inversion (c : config) (gps_k : bool) (z x : Vec) (P : Mat) :
  (update c false z x P = None <-> det2 (cfg_R c) = 0) /\
  (sym 5 P -> psd 5 P -> sym 2 (cfg_R c) -> pd 2 (cfg_R c) ->
     update c gps_k z x P <> None).
Proof.
  split; [split|].
  - intros E. destruct (Req_EM_T (det2 (cfg_R c)) 0) as [e|n]; [exact e|].
    destruct (update_none c z x P n) as [Si E']. rewrite E' in E. discriminate.
  - intros e. unfold update. change (JH_of false) with JH_none.
    destruct (inv2 (innov_cov JH_none P (cfg_R c))) eqn:E; [|reflexivity].
    exfalso. unfold inv2 in E.
    destruct (Req_EM_T (det2 (innov_cov JH_none P (cfg_R c))) 0) as [_|n]; [discriminate|].
    apply n. unfold det2 in *. rewrite !innov_cov_none. exact e.
  - intros HsP HpP HsR HdR. apply update_defined.
    + apply innov_cov_sym; assumption.
    + apply innov_cov_pd; assumption.
Qed.

Lemma C9_inversion_witness :
  (sym 5 P0_nb /\ psd 5 P0_nb /\ sym 2 (cfg_R cfg_nb) /\ pd 2 (cfg_R cfg_nb)) /\
  update cfg_nb true (vec5 1 2 0 0 0) (vec5 0 0 0 10 0) P0_nb <> None.
Proof.
  destruct P0_nb_ok as [HsP HpP]. destruct cfg_nb_R as [HsR HdR].
  split; [repeat split; assumption|].
  apply (proj2 (C9_inversion cfg_nb true (vec5 1 2 0 0 0) (vec5 0 0 0 10 0) P0_nb));
    assumption.
Defined.

(* ================================================================== *)
(** ** The GPS preprocessing *)

Lemma sumn_shift (n : nat) (f : nat -> R) :
  sumn (S n) f = f 0%nat + sumn n (fun j => f (S j)).
Proof.
  induction n as [|n IH]; [simpl; ring|].
  change (sumn (S (S n)) f) with (sumn (S n) f + f (S n)).
  rewrite IH. simpl. ring.
Qed.

Lemma nth_cumsum_from (l : list R) :
  forall (acc : R) (k : nat), (k < length l)%nat ->
  nth k (cumsum_from acc l) 0 = acc + sumn (S k) (fun j => nth j l 0).
Proof.
  induction l as [|a t IH]; intros acc k Hk; simpl in Hk; [lia|].
  destruct k as [|k].
  - simpl. ring.
  - simpl (nth (S k) (cumsum_from acc (a :: t)) 0).
    rewrite IH by lia. rewrite (sumn_shift (S k)). simpl (nth 0 (a :: t) 0).
    simpl. ring.
Qed.

Lemma cumsum_step (l : list R) (k : nat) :
  (S k < length l)%nat ->
  nth (S k) (cumsum l) 0 = nth k (cumsum l) 0 + nth (S k) l 0.
Proof.
  intros Hk. unfold cumsum. rewrite !nth_cumsum_from by lia.
  change (sumn (S (S k)) (fun j => nth j l 0))
    with (sumn (S k) (fun j => nth j l 0) + nth (S k) l 0).
  ring.
Qed.

Lemma cumsum_first (a : R) (t : list R) : nth 0 (cumsum (a :: t)) 0 = a.
Proof. simpl. ring. Qed.

Lemma length_diff (l : list R) : length (diff l) = pred (length l).
Proof.
  induction l as [|a t IH]; [reflexivity|].
  destruct t as [|b u]; [reflexivity|].
  change (length (diff (a :: b :: u))) with (S (length (diff (b :: u)))).
  rewrite IH. reflexivity.
Qed.

Lemma length_hdiff (l : list R) : l <> [] -> length (hdiff l) = length l.
Proof.
  intros Hl. unfold hdiff. simpl. rewrite length_diff.
  destruct l; [contradiction|reflexivity].
Qed.

Lemma nth_diff (l : list R) :
  forall j, (S j < length l)%nat -> nth j (diff l) 0 = nth (S j) l 0 - nth j l 0.
Proof.
  induction l as [|a t IH]; intros j Hj; simpl in Hj; [lia|].
  destruct t as [|b u]; simpl in Hj; [lia|].
  destruct j as [|j]; [reflexivity|].
  change (nth (S j) (diff (a :: b :: u)) 0) with (nth j (diff (b :: u)) 0).
  rewrite IH by (simpl; lia). reflexivity.
Qed.

Lemma nth_hdiff (l : list R) (j : nat) :
  (S j < length l)%nat -> nth (S j) (hdiff l) 0 = nth (S j) l 0 - nth j l 0.
Proof. intros Hj. unfold hdiff. simpl. apply nth_diff. exact Hj. Qed.

Lemma nth_map_combine (g : R * R -> R) (u w : list R) (j : nat) :
  length u = length w -> (j < length u)%nat ->
  nth j (map g (combine u w)) 0 = g (nth j u 0, nth j w 0).
Proof.
  intros Hl Hj.
  rewrite (nth_indep _ 0 (g (0, 0))) by (rewrite length_map, length_combine; lia).
  rewrite map_nth, combine_nth by exact Hl. reflexivity.
Qed.

Lemma length_map_combine (g : R * R -> R) (u w : list R) :
  length (map g (combine u w)) = Nat.min (length u) (length w).
Proof. rewrite length_map, length_combine. reflexivity. Qed.

Lemma nth_emul (u w : list R) (j : nat) :
  length u = length w -> (j < length u)%nat ->
  nth j (emul u w) 0 = nth j u 0 * nth j w 0.
Proof. intros. unfold emul. rewrite nth_map_combine by assumption. reflexivity. Qed.

Lemma length_emul (u w : list R) : length (emul u w) = Nat.min (length u) (length w).
Proof. apply length_map_combine. Qed.

Lemma nth_arc (altitude : list R) (j : nat) :
  (j < length altitude)%nat ->
  nth j (arc_of altitude) 0 = 2 * PI * (RadiusEarth + nth j altitude 0) / 360.
Proof.
  intros Hj. unfold arc_of.
  rewrite (nth_indep _ 0 (2 * PI * (RadiusEarth + 0) / 360)) by (rewrite length_map; lia).
  apply (map_nth (fun a => 2 * PI * (RadiusEarth + a) / 360)).
Qed.

Lemma nth_coslat (latitude : list R) (j : nat) :
  (j < length latitude)%nat ->
  nth j (coslat latitude) 0 = cos (nth j latitude 0 * PI / 180).
Proof.
  intros Hj. unfold coslat.
  rewrite (nth_indep _ 0 (cos (0 * PI / 180))) by (rewrite length_map; lia).
  apply (map_nth (fun l => cos (l * PI / 180))).
Qed.

Lemma length_dy (latitude altitude : list R) :
  length altitude = length latitude -> latitude <> [] ->
  length (dy_of latitude altitude) = length latitude.
Proof.
  intros Halt Hne. unfold dy_of. rewrite length_emul, length_hdiff by exact Hne.
  unfold arc_of. rewrite length_map. lia.
Qed.

Lemma nth_dy (latitude altitude : list R) (j : nat) :
  length altitude = length latitude -> latitude <> [] -> (j < length latitude)%nat ->
  nth j (dy_of latitude altitude) 0 = nth j (arc_of altitude) 0 * nth j (hdiff latitude) 0.
Proof.
  intros Halt Hne Hj. unfold dy_of. rewrite nth_emul; [reflexivity| |].
  - rewrite length_hdiff by exact Hne. unfold arc_of; rewrite length_map; lia.
  - unfold arc_of; rewrite length_map; lia.
Qed.

Section Track.
Variables latitude longitude altitude : list R.
Hypothesis Hlon : length longitude = length latitude.
Hypothesis Halt : length altitude = length latitude.
Hypothesis Hne : latitude <> [].

Lemma track_longitude_ne : longitude <> [].
Proof. intros E. apply Hne. apply length_zero_iff_nil. rewrite <- Hlon, E. reflexivity. Qed.

Lemma length_dx : length (dx_of latitude longitude altitude) = length latitude.
Proof.
  unfold dx_of. rewrite !length_emul, length_hdiff by exact track_longitude_ne.
  unfold arc_of, coslat. rewrite !length_map. lia.
Qed.

Lemma nth_dx (j : nat) : (j < length latitude)%nat ->
  nth j (dx_of latitude longitude altitude) 0
  = nth j (arc_of altitude) 0 * nth j (coslat latitude) 0 * nth j (hdiff longitude) 0.
Proof.
  intros Hj. pose proof track_longitude_ne as Hn.
  unfold dx_of. rewrite nth_emul.
  - rewrite nth_emul; [reflexivity| |]; unfold arc_of, coslat; rewrite !length_map; lia.
  - rewrite length_emul, length_hdiff by exact Hn. unfold arc_of, coslat; rewrite !length_map; lia.
  - rewrite length_emul. unfold arc_of, coslat; rewrite !length_map; lia.
Qed.

Lemma nth_GPS (j : nat) : (j < length latitude)%nat ->
  nth j (GPS_of latitude longitude altitude) true = false <->
  nth j (dx_of latitude longitude altitude) 0 = 0 /\ nth j (dy_of latitude altitude) 0 = 0.
Proof.
  intros Hj. pose proof length_dx as Ex. pose proof (length_dy latitude altitude Halt Hne) as Ey.
  unfold GPS_of.
  set (f := fun d : R => if Req_EM_T d 0 then false else true).
  rewrite (nth_indep _ true (f 0)) by (unfold ds_of; rewrite length_map, length_map_combine; lia).
  rewrite map_nth. unfold ds_of. rewrite nth_map_combine by lia. cbn [fst snd].
  set (a := nth j (dx_of latitude longitude altitude) 0).
  set (b := nth j (dy_of latitude altitude) 0).
  unfold f. destruct (Req_EM_T (sqrt (a ^ 2 + b ^ 2)) 0) as [e|n].
  - split; [intros _|reflexivity].
    apply sqrt_eq_0 in e; [|nra]. split; nra.
  - split; [discriminate|]. intros [-> ->]. exfalso. apply n.
    replace (0 ^ 2 + 0 ^ 2) with 0 by ring. apply sqrt_0.
Qed.

End Track.

Lemma length_cumsum_from (l : list R) : forall acc, length (cumsum_from acc l) = length l.
Proof. induction l as [|a t IH]; intros acc; simpl; [reflexivity|]. rewrite IH. reflexivity. Qed.

Lemma length_cumsum (l : list R) : length (cumsum l) = length l.
Proof. apply length_cumsum_from. Qed.

(** [np.cumsum] of [c * np.hstack((0.0, np.diff(l)))] telescopes. *)
Lemma sumn_hdiff (c : R) (l : list R) (k : nat) :
  (k < length l)%nat ->
  sumn (S k) (fun j => c * nth j (hdiff l) 0) = c * (nth k l 0 - nth 0 l 0).
Proof.
  induction k as [|k IH]; intros Hk.
  - simpl. ring.
  - change (sumn (S (S k)) (fun j => c * nth j (hdiff l) 0))
      with (sumn (S k) (fun j => c * nth j (hdiff l) 0) + c * nth (S k) (hdiff l) 0).
    rewrite IH by lia. rewrite nth_hdiff by exact Hk. ring.
Qed.

Lemma const_nth (l : list R) (h : R) (j : nat) :
  Forall (fun a => a = h) l -> (j < length l)%nat -> nth j l 0 = h.
Proof. intros H Hj. exact (proj1 (Forall_nth _ l) H j 0 Hj). Qed.

(** The first GPS flag is always false ([dx[0] = dy[0] = 0] from the
    leading [0.0] of [np.hstack]), and the initial state built from
    [mx[0]], [my[0]] starts at the origin of the metric frame. *)
Theorem gps_first_step_at_origin (latitude longitude altitude course speed yawrate : list R) :
  length longitude = length latitude -> length altitude = length latitude ->
  latitude <> [] ->
  nth 0 (GPS_of latitude longitude altitude) true = false /\
  x_init (mx_of latitude longitude altitude) (my_of latitude altitude)
         course speed yawrate 0%nat = 0 /\
  x_init (mx_of latitude longitude altitude) (my_of latitude altitude)
         course speed yawrate 1%nat = 0.
Proof.
  intros Hlon Halt Hne.
  assert (H0 : (0 < length latitude)%nat)
    by (destruct latitude; [contradiction|simpl; lia]).
  assert (Ex : nth 0 (dx_of latitude longitude altitude) 0 = 0).
  { rewrite nth_dx by assumption. unfold hdiff. simpl. ring. }
  assert (Ey : nth 0 (dy_of latitude altitude) 0 = 0).
  { rewrite nth_dy by assumption. unfold hdiff. simpl. ring. }
  split; [apply nth_GPS; auto|].
  unfold x_init, vec5, mx_of, my_of, cumsum.
  rewrite !nth_cumsum_from by (rewrite ?length_dx, ?length_dy; assumption).
  simpl. rewrite Ex, Ey. split; ring.
Qed.

(** For every later sample, the GPS flag is false exactly when the
    metric position [(mx, my)] is the same as at the previous sample. *)
Theorem gps_flag_iff_moved (latitude longitude altitude : list R) (k : nat) :
  length longitude = length latitude -> length altitude = length latitude ->
  (S k < length latitude)%nat ->
  (nth (S k) (GPS_of latitude longitude altitude) true = false <->
   nth (S k) (mx_of latitude longitude altitude) 0 = nth k (mx_of latitude longitude altitude) 0 /\
   nth (S k) (my_of latitude altitude) 0 = nth k (my_of latitude altitude) 0).
Proof.
  intros Hlon Halt Hk.
  assert (Hne : latitude <> []) by (intros E; rewrite E in Hk; simpl in Hk; lia).
  rewrite nth_GPS by assumption. unfold mx_of, my_of.
  rewrite !cumsum_step by (rewrite ?length_dx, ?length_dy; assumption).
  split; intros [A B]; split; lra.
Qed.

(** With a constant altitude, converting the metric [y] positions back
    with [latitude[0] + y/arc] recovers the recorded latitudes. *)
Theorem latekf_round_trip (latitude altitude : list R) (h : R) (k : nat) :
  length altitude = length latitude -> Forall (fun a => a = h) altitude ->
  RadiusEarth + h <> 0 -> (k < length latitude)%nat ->
  nth k (latekf_of latitude altitude (my_of latitude altitude)) 0 = nth k latitude 0.
Proof.
  intros Halt Hh Hr Hk.
  assert (Hne : latitude <> []) by (intros E; rewrite E in Hk; simpl in Hk; lia).
  pose proof PI_RGT_0 as Hpi.
  set (arc := 2 * PI * (RadiusEarth + h) / 360).
  assert (Ha : arc <> 0) by (unfold arc; intros E; apply Hr; nra).
  assert (Earc : forall j, (j < length latitude)%nat -> nth j (arc_of altitude) 0 = arc).
  { intros j Hj. rewrite nth_arc by lia. rewrite (const_nth altitude h j Hh) by lia. reflexivity. }
  unfold latekf_of. rewrite nth_map_combine.
  2: { unfold my_of, arc_of. rewrite length_cumsum, length_dy, length_map; auto. }
  2: { unfold my_of. rewrite length_cumsum, length_dy; auto. }
  cbn [fst snd]. rewrite Earc by exact Hk.
  unfold my_of, cumsum. rewrite nth_cumsum_from by (rewrite length_dy; auto).
  rewrite (sumn_ext (S k) _ (fun j => arc * nth j (hdiff latitude) 0)).
  2: { intros j Hj. rewrite nth_dy, Earc by (try assumption; lia). reflexivity. }
  rewrite sumn_hdiff by exact Hk. field. exact Ha.
Qed.

(** With a constant altitude and a constant latitude, converting the
    metric [x] positions back with [longitude[0] + x/(arc*cos(lat))]
    recovers the recorded longitudes. *)
Theorem lonekf_round_trip (latitude longitude altitude : list R) (h phi : R) (k : nat) :
  length longitude = length latitude -> length altitude = length latitude ->
  Forall (fun a => a = h) altitude -> Forall (fun l => l = phi) latitude ->
  RadiusEarth + h <> 0 -> cos (phi * PI / 180) <> 0 -> (k < length latitude)%nat ->
  nth k (lonekf_of latitude longitude altitude (mx_of latitude longitude altitude)) 0
  = nth k longitude 0.
Proof.
  intros Hlon Halt Hh Hphi Hr Hc Hk.
  assert (Hne : latitude <> []) by (intros E; rewrite E in Hk; simpl in Hk; lia).
  pose proof PI_RGT_0 as Hpi.
  set (arc := 2 * PI * (RadiusEarth + h) / 360).
  assert (Ha : arc <> 0) by (unfold arc; intros E; apply Hr; nra).
  set (cl := cos (phi * PI / 180)).
  assert (Earc : forall j, (j < length latitude)%nat -> nth j (arc_of altitude) 0 = arc).
  { intros j Hj. rewrite nth_arc by lia. rewrite (const_nth altitude h j Hh) by lia. reflexivity. }
  assert (Ecos : forall j, (j < length latitude)%nat -> nth j (coslat latitude) 0 = cl).
  { intros j Hj. rewrite nth_coslat by lia. rewrite (const_nth latitude phi j Hphi) by lia. reflexivity. }
  assert (Lac : length (emul (arc_of altitude) (coslat latitude)) = length latitude).
  { rewrite length_emul. unfold arc_of, coslat. rewrite !length_map. lia. }
  unfold lonekf_of. rewrite nth_map_combine.
  2: { unfold mx_of. rewrite length_cumsum, length_dx, Lac; auto. }
  2: { unfold mx_of. rewrite length_cumsum, length_dx; auto. }
  cbn [fst snd]. rewrite nth_emul by (unfold arc_of, coslat; rewrite ?length_map; lia).
  rewrite Earc, Ecos by exact Hk.
  unfold mx_of, cumsum. rewrite nth_cumsum_from by (rewrite length_dx; auto).
  rewrite (sumn_ext (S k) _ (fun j => arc * cl * nth j (hdiff longitude) 0)).
  2: { intros j Hj. rewrite nth_dx, Earc, Ecos by (try assumption; lia). reflexivity. }
  rewrite sumn_hdiff by lia. field. split; assumption.
Qed.

(* ================================================================== *)
(** ** The heading wrap *)

Lemma sin_cos_shift_Z (y : R) (n : Z) :
  sin (y + 2 * IZR n * PI) = sin y /\ cos (y + 2 * IZR n * PI) = cos y.
Proof.
  assert (Hnat : forall m : nat, sin (y + 2 * INR m * PI) = sin y /\
                                 cos (y + 2 * INR m * PI) = cos y)
    by (intros m; split; [apply sin_period | apply cos_period]).
  destruct n as [|p|p].
  - replace (y + 2 * IZR 0 * PI) with y by (simpl; ring). split; reflexivity.
  - change (IZR (Z.pos p)) with (IPR p). rewrite <- INR_IPR. apply Hnat.
  - change (IZR (Z.neg p)) with (- IPR p). rewrite <- INR_IPR.
    set (m := Pos.to_nat p). set (z := y + 2 * - INR m * PI).
    split; [rewrite <- (sin_period z m) | rewrite <- (cos_period z m)];
      f_equal; unfold z; ring.
Qed.

(* ================================================================== *)
(** ** Derivatives *)

Lemma D_ext (f g : R -> R) (y l : R) :
  (forall p, f p = g p) -> derivable_pt_lim g y l -> derivable_pt_lim f y l.
Proof.
  intros E Hg eps Heps. destruct (Hg eps Heps) as [d Hd]. exists d.
  intros h Hh0 Hh. rewrite !E. apply Hd; assumption.
Qed.

Lemma D_eq (f : R -> R) (y l l' : R) :
  derivable_pt_lim f y l' -> l' = l -> derivable_pt_lim f y l.
Proof. intros H ->. exact H. Qed.

Lemma D_const (a y : R) : derivable_pt_lim (fun _ => a) y 0.
Proof. exact (derivable_pt_lim_const a y). Qed.

Lemma D_id (y : R) : derivable_pt_lim (fun p => p) y 1.
Proof. exact (derivable_pt_lim_id y). Qed.

Lemma D_plus (f g : R -> R) (y l1 l2 : R) :
  derivable_pt_lim f y l1 -> derivable_pt_lim g y l2 ->
  derivable_pt_lim (fun p => f p + g p) y (l1 + l2).
Proof. intros; apply (derivable_pt_lim_plus f g); assumption. Qed.

Lemma D_minus (f g : R -> R) (y l1 l2 : R) :
  derivable_pt_lim f y l1 -> derivable_pt_lim g y l2 ->
  derivable_pt_lim (fun p => f p - g p) y (l1 - l2).
Proof. intros; apply (derivable_pt_lim_minus f g); assumption. Qed.

Lemma D_opp (f : R -> R) (y l : R) :
  derivable_pt_lim f y l -> derivable_pt_lim (fun p => - f p) y (- l).
Proof.
  intros H. apply (D_ext _ (fun p => 0 - f p)); [intros; ring|].
  apply (D_eq _ _ _ (0 - l)); [apply (D_minus (fun _ => 0) f); [apply D_const|exact H]|ring].
Qed.

Lemma D_mult (f g : R -> R) (y l1 l2 : R) :
  derivable_pt_lim f y l1 -> derivable_pt_lim g y l2 ->
  derivable_pt_lim (fun p => f p * g p) y (l1 * g y + f y * l2).
Proof. intros; apply (derivable_pt_lim_mult f g); assumption. Qed.

Lemma D_div (f g : R -> R) (y l1 l2 : R) :
  derivable_pt_lim f y l1 -> derivable_pt_lim g y l2 -> g y <> 0 ->
  derivable_pt_lim (fun p => f p / g p) y ((l1 * g y - l2 * f y) / (g y * g y)).
Proof. intros; apply (derivable_pt_lim_div f g); assumption. Qed.

Lemma D_sin (f : R -> R) (y l : R) :
  derivable_pt_lim f y l -> derivable_pt_lim (fun p => sin (f p)) y (cos (f y) * l).
Proof. intros H. apply (derivable_pt_lim_comp f sin); [exact H|apply derivable_pt_lim_sin]. Qed.

Lemma D_cos (f : R -> R) (y l : R) :
  derivable_pt_lim f y l -> derivable_pt_lim (fun p => cos (f p)) y (- sin (f y) * l).
Proof. intros H. apply (derivable_pt_lim_comp f cos); [exact H|apply derivable_pt_lim_cos]. Qed.

Ltac dlim :=
  repeat first
    [ apply D_id | apply D_const
    | apply D_div | apply D_plus | apply D_minus | apply D_opp | apply D_mult
    | apply D_sin | apply D_cos ].

(** |sin u| <= |u|, squared. *)
Lemma sin_sq_le (u : R) : sin u ^ 2 <= u ^ 2.
Proof.
  assert (Hpos : forall t, 0 <= t -> sin t ^ 2 <= t ^ 2).
  { intros t Ht. destruct (Req_EM_T t 0) as [->|nz].
    - rewrite sin_0. lra.
    - assert (Hlt : sin t < t) by (apply sin_lt_x; lra).
      assert (Hge : - t <= sin t).
      { destruct (Rle_dec t 1) as [Hle|Hgt].
        - pose proof PI2_1.
          pose proof (sin_ge_0 t ltac:(lra) ltac:(lra)). lra.
        - pose proof (SIN_bound t). lra. }
      nra. }
  destruct (Rle_dec 0 u) as [H|H].
  - apply Hpos; exact H.
  - pose proof (Hpos (- u) ltac:(lra)) as Hn. rewrite sin_neg in Hn. nra.
Qed.

(** The heading wrap [(a + π) % 2π − π] only removes whole turns: it
    differs from [a] by an integer multiple of [2π], so the heading's
    sine and cosine, which are all the motion equations use, are
    unchanged. *)
Theorem wrap_same_angle (a : R) :
  (exists n : Z, wrap a = a + 2 * IZR n * PI) /\
  sin (wrap a) = sin a /\ cos (wrap a) = cos a.
Proof.
  assert (E : wrap a = a + 2 * IZR (- Int_part ((a + PI) / (2 * PI))) * PI)
    by (unfold wrap, pymod; rewrite opp_IZR; ring).
  split; [eexists; exact E|]. rewrite E. apply sin_cos_shift_Z.
Qed.

(** A heading already in [[−π, π)] is left as it is by the wrap. *)
Theorem wrap_identity (a : R) : -PI <= a < PI -> wrap a = a.
Proof.
  intros Ha. pose proof PI_RGT_0 as Hpi. unfold wrap, pymod.
  set (t := (a + PI) / (2 * PI)).
  assert (Et : a + PI = t * (2 * PI)) by (unfold t; field; lra).
  assert (Hz : 0%Z = Int_part t) by (apply Int_part_spec; simpl; nra).
  rewrite <- Hz. simpl. ring.
Qed.

(** A vehicle with speed [x[3] = 0] keeps its position through the
    prediction, in both branches (on a turning step for a non-zero yaw
    rate [x[4]], which the turning branch divides by). *)
Theorem predict_stationary (dt w : R) (x : Vec) :
  Rabs w < eps_yaw \/ x 4%nat <> 0 -> x 3%nat = 0 ->
  predict_state dt w x 0%nat = x 0%nat /\ predict_state dt w x 1%nat = x 1%nat.
Proof.
  intros _ Hv. destruct (Rlt_dec (Rabs w) eps_yaw) as [Hw|Hw].
  - destruct (predict_state_straight dt w x Hw) as (E0 & E1 & _).
    rewrite E0, E1, Hv. split; ring.
  - destruct (predict_state_turn dt w x Hw) as (E0 & E1 & _).
    rewrite E0, E1, Hv. unfold Rdiv. split; ring.
Qed.

(** The predicted position moves by at most [|v|·dt]: exactly [|v|·dt]
    in the straight branch, and in the turning branch (for a non-zero yaw
    rate [x[4]], which the turning branch divides by) the chord
    [|2·(v/ψ̇)·sin(ψ̇·dt/2)|] of the arc of length [|v|·dt]. *)
Theorem predict_displacement_bound (dt w : R) (x : Vec) :
  Rabs w < eps_yaw \/ x 4%nat <> 0 ->
  (Rabs w < eps_yaw ->
     (predict_state dt w x 0%nat - x 0%nat) ^ 2 + (predict_state dt w x 1%nat - x 1%nat) ^ 2 = (x 3%nat * dt) ^ 2) /\
  (~ Rabs w < eps_yaw ->
     (predict_state dt w x 0%nat - x 0%nat) ^ 2 + (predict_state dt w x 1%nat - x 1%nat) ^ 2 = (2 * (x 3%nat / x 4%nat) * sin (x 4%nat * dt / 2)) ^ 2) /\
  (predict_state dt w x 0%nat - x 0%nat) ^ 2 + (predict_state dt w x 1%nat - x 1%nat) ^ 2 <= (x 3%nat * dt) ^ 2.
Proof.
  intros Hc.
  assert (Hs : Rabs w < eps_yaw -> (predict_state dt w x 0%nat - x 0%nat) ^ 2 + (predict_state dt w x 1%nat - x 1%nat) ^ 2 = (x 3%nat * dt) ^ 2).
  { intros Hw. destruct (predict_state_straight dt w x Hw) as (E0 & E1 & _).
    rewrite E0, E1. pose proof (sin2_cos2 (x 2%nat)) as Hs. unfold Rsqr in Hs.
    replace ((x 0%nat + x 3%nat * dt * cos (x 2%nat) - x 0%nat) ^ 2 +
             (x 1%nat + x 3%nat * dt * sin (x 2%nat) - x 1%nat) ^ 2)
      with ((x 3%nat * dt) ^ 2 * (sin (x 2%nat) * sin (x 2%nat) + cos (x 2%nat) * cos (x 2%nat)))
      by ring.
    rewrite Hs. ring. }
  assert (Ht : ~ Rabs w < eps_yaw ->
               (predict_state dt w x 0%nat - x 0%nat) ^ 2 + (predict_state dt w x 1%nat - x 1%nat) ^ 2 = (2 * (x 3%nat / x 4%nat) * sin (x 4%nat * dt / 2)) ^ 2 /\
               (predict_state dt w x 0%nat - x 0%nat) ^ 2 + (predict_state dt w x 1%nat - x 1%nat) ^ 2 <= (x 3%nat * dt) ^ 2).
  { intros Hw. destruct Hc as [Hc|Hr]; [contradiction|].
    destruct (predict_state_turn dt w x Hw) as (E0 & E1 & _).
    rewrite E0, E1.
    set (v := x 3%nat). set (r := x 4%nat). set (B := x 2%nat).
    set (A := r * dt + B). set (u := r * dt / 2).
    assert (HAB : A - B = 2 * u) by (unfold A, u; field).
    pose proof (sin2_cos2 A) as HA. pose proof (sin2_cos2 B) as HB.
    unfold Rsqr in HA, HB. pose proof (cos_minus A B) as Hm.
    rewrite HAB, cos_2a_sin in Hm.
    assert (Ed : (B + v / r * (sin A - sin B) - B) ^ 2 + (0 + v / r * (- cos A + cos B)) ^ 2
                 = (v / r) ^ 2 * (4 * (sin u) ^ 2)) by (ring_simplify; nra).
    pose proof (sin_sq_le u) as Hu.
    assert (Hvr : 0 <= (v / r) ^ 2) by (apply pow2_ge_0).
    assert (Eb : (v / r) ^ 2 * (4 * u ^ 2) = (v * dt) ^ 2) by (unfold u; field; exact Hr).
    replace (x 0%nat + v / r * (sin A - sin B) - x 0%nat) with (B + v / r * (sin A - sin B) - B) by ring.
    replace (x 1%nat + v / r * (- cos A + cos B) - x 1%nat) with (0 + v / r * (- cos A + cos B)) by ring.
    rewrite Ed. split; [ring|].
    rewrite <- Eb. apply Rmult_le_compat_l; [exact Hvr|]. lra. }
  split; [exact Hs|]. split; [intros Hw; exact (proj1 (Ht Hw))|].
  destruct (Rlt_dec (Rabs w) eps_yaw) as [Hw|Hw].
  - rewrite (Hs Hw). apply Rle_refl.
  - exact (proj2 (Ht Hw)).
Qed.

Ltac turn_formula Hw :=
  intros p;
  first [ rewrite (proj1 (predict_state_turn _ _ _ Hw))
        | rewrite (proj1 (proj2 (predict_state_turn _ _ _ Hw))) ];
  unfold vset; simpl; reflexivity.

(** In the turning branch, the entries [a13], [a14], [a15] of the
    Jacobian are the partial derivatives of the predicted [x] position
    with respect to the heading [x[2]], the speed [x[3]] and the yaw rate
    [x[4]] (for a non-zero yaw rate), all taken at the same state. *)
Theorem jacobian_row_x_derivatives (dt w : R) (x : Vec) :
  ~ Rabs w < eps_yaw -> x 4%nat <> 0 ->
  derivable_pt_lim (fun p => predict_state dt w (vset x 2%nat p) 0%nat) (x 2%nat) (a13 dt x) /\
  derivable_pt_lim (fun p => predict_state dt w (vset x 3%nat p) 0%nat) (x 3%nat) (a14 dt x) /\
  derivable_pt_lim (fun p => predict_state dt w (vset x 4%nat p) 0%nat) (x 4%nat) (a15 dt x).
Proof.
  intros Hw Hr. split; [|split].
  - apply (D_ext _ (fun p => x 0%nat + x 3%nat / x 4%nat * (sin (x 4%nat * dt + p) - sin p)));
      [turn_formula Hw|].
    eapply D_eq; [dlim|]. unfold a13. field. exact Hr.
  - apply (D_ext _ (fun p => x 0%nat + p / x 4%nat * (sin (x 4%nat * dt + x 2%nat) - sin (x 2%nat))));
      [turn_formula Hw|].
    eapply D_eq; [dlim; exact Hr|]. unfold a14. field. exact Hr.
  - apply (D_ext _ (fun p => x 0%nat + x 3%nat / p * (sin (p * dt + x 2%nat) - sin (x 2%nat))));
      [turn_formula Hw|].
    eapply D_eq; [dlim; exact Hr|]. unfold a15. field. exact Hr.
Qed.

(** The same for the predicted [y] position and the entries [a23],
    [a24], [a25]. *)
Theorem jacobian_row_y_derivatives (dt w : R) (x : Vec) :
  ~ Rabs w < eps_yaw -> x 4%nat <> 0 ->
  derivable_pt_lim (fun p => predict_state dt w (vset x 2%nat p) 1%nat) (x 2%nat) (a23 dt x) /\
  derivable_pt_lim (fun p => predict_state dt w (vset x 3%nat p) 1%nat) (x 3%nat) (a24 dt x) /\
  derivable_pt_lim (fun p => predict_state dt w (vset x 4%nat p) 1%nat) (x 4%nat) (a25 dt x).
Proof.
  intros Hw Hr. split; [|split].
  - apply (D_ext _ (fun p => x 1%nat + x 3%nat / x 4%nat * (- cos (x 4%nat * dt + p) + cos p)));
      [turn_formula Hw|].
    eapply D_eq; [dlim|]. unfold a23. field. exact Hr.
  - apply (D_ext _ (fun p => x 1%nat + p / x 4%nat * (- cos (x 4%nat * dt + x 2%nat) + cos (x 2%nat))));
      [turn_formula Hw|].
    eapply D_eq; [dlim; exact Hr|]. unfold a24. field. exact Hr.
  - apply (D_ext _ (fun p => x 1%nat + x 3%nat / p * (- cos (p * dt + x 2%nat) + cos (x 2%nat))));
      [turn_formula Hw|].
    eapply D_eq; [dlim; exact Hr|]. unfold a25. field. exact Hr.
Qed.

(* ================================================================== *)
(** ** Covariance: diagonal bounds *)

Lemma quad_unit (n : nat) (A : Mat) (i : nat) :
  (i < n)%nat -> quad n A (fun k => ident k i) = A i i.
Proof.
  intros Hi. unfold quad, bil.
  rewrite (sumn_ext n _ (fun a => mv n A (fun k => ident k i) a * ident a i)) by (intros; ring).
  rewrite sumn_ident_r by exact Hi. unfold mv. apply sumn_ident_r. exact Hi.
Qed.

Lemma innov_cov_psd (JH P Rm : Mat) : psd 5 P -> psd 2 Rm -> psd 2 (innov_cov JH P Rm).
Proof.
  intros HP HR u. rewrite innov_cov_quad. pose proof (HP (tmv 2 JH u)).
  pose proof (HR u). lra.
Qed.

(** The inverse of a symmetric positive-semidefinite 2x2 matrix is
    positive semidefinite. *)
Lemma inv_psd2 (S Si : Mat) :
  sym 2 S -> psd 2 S ->
  (forall a b, (a < 2)%nat -> (b < 2)%nat -> mmul 2 S Si a b = ident a b) ->
  psd 2 Si.
Proof.
  intros Hs Hp Hinv h. set (g := mv 2 Si h).
  assert (Hh : forall a, (a < 2)%nat -> mv 2 S g a = h a).
  { intros a Ha. unfold g. rewrite <- mv_mmul. unfold mv at 1.
    rewrite (sumn_ext 2 _ (fun k => ident a k * h k))
      by (intros k Hk; rewrite Hinv by assumption; reflexivity).
    apply sumn_ident_l. exact Ha. }
  unfold quad, bil. fold g.
  rewrite (sumn_ext 2 _ (fun a => g a * mv 2 S g a))
    by (intros a Ha; rewrite <- (Hh a Ha); ring).
  exact (Hp g).
Qed.

(** After the time update [P = JA*P*JA.T + Q] every variance is at least
    the corresponding process-noise variance [Q[i,i]], for every real
    Jacobian [JA] and every positive-semidefinite [P]. *)
Theorem predict_variance_ge_noise (JA P Q : Mat) (i : nat) :
  psd 5 P -> (i < 5)%nat -> Q i i <= predict_cov JA P Q i i.
Proof.
  intros HP Hi.
  rewrite <- (quad_unit 5 Q i Hi), <- (quad_unit 5 (predict_cov JA P Q) i Hi).
  rewrite predict_cov_quad. pose proof (HP (tmv 5 JA (fun k => ident k i))). lra.
Qed.

(** The measurement update never increases a variance: every diagonal
    entry of [(I - K*JH)*P] is at most the one of [P], with or without a
    fix, for a symmetric positive-semidefinite [P] and [R]. *)
Theorem update_variance_le (c : config) (gps_k : bool) (z x x' : Vec) (P P' K : Mat) (i : nat) :
  sym 5 P -> psd 5 P -> sym 2 (cfg_R c) -> psd 2 (cfg_R c) ->
  update c gps_k z x P = Some (x', P', K) -> (i < 5)%nat ->
  P' i i <= P i i.
Proof.
  intros HsP HpP HsR HpR. unfold update.
  destruct (inv2 (innov_cov (JH_of gps_k) P (cfg_R c))) as [Si|] eqn:E; [|discriminate].
  intros H Hi. injection H as _ <- _.
  destruct (inv2_spec _ _ E) as (_ & Hinv & _).
  assert (HpSi : psd 2 Si).
  { apply (inv_psd2 (innov_cov (JH_of gps_k) P (cfg_R c))); [| |exact Hinv].
    - apply innov_cov_sym; assumption.
    - apply innov_cov_psd; assumption. }
  rewrite correct_cov_entry, KHP_entry by assumption.
  pose proof (HpSi (fun b => mmul 5 (JH_of gps_k) P b i)) as Hq. unfold quad in Hq. lra.
Qed.

(** A position fix equal to the predicted position leaves the whole state
    estimate unchanged ([y = 0], so [x + K*y = x]). *)
Theorem update_exact_fix (c : config) (gps_k : bool) (z x x' : Vec) (P P' K : Mat) :
  update c gps_k z x P = Some (x', P', K) -> z 0%nat = x 0%nat -> z 1%nat = x 1%nat ->
  forall i, x' i = x i.
Proof.
  unfold update.
  destruct (inv2 (innov_cov (JH_of gps_k) P (cfg_R c))) as [Si|]; [|discriminate].
  intros H H0 H1 i. injection H as <- _ _.
  unfold vadd. rewrite (mv_ext 2 _ _ (fun _ => 0)).
  - unfold mv. rewrite sumn_zero; [ring|]. intros; ring.
  - intros j Hj. unfold residual, vsub, hx_of.
    destruct j as [|[|j]]; [lra|lra|lia].
Qed.

(** After a step with a position fix, the variance of each position
    coordinate is at most the GPS measurement variance [R[i,i]], for a
    symmetric positive-semidefinite [P] and [R]. *)
Theorem fix_position_variance_le_R (c : config) (z x x' : Vec) (P P' K : Mat) (i : nat) :
  sym 5 P -> psd 5 P -> sym 2 (cfg_R c) -> psd 2 (cfg_R c) ->
  update c true z x P = Some (x', P', K) -> (i < 2)%nat ->
  P' i i <= cfg_R c i i.
Proof.
  intros HsP HpP HsR HpR. unfold update.
  destruct (inv2 (innov_cov (JH_of true) P (cfg_R c))) as [Si|] eqn:E; [|discriminate].
  intros H Hi. injection H as _ <- _.
  destruct (inv2_spec _ _ E) as (Hd & Hinv & _).
  assert (HpSi : psd 2 Si).
  { apply (inv_psd2 (innov_cov (JH_of true) P (cfg_R c))); [| |exact Hinv].
    - apply innov_cov_sym; assumption.
    - apply innov_cov_psd; assumption. }
  rewrite correct_cov_entry, KHP_entry by (try assumption; lia).
  pose proof (HpSi (fun b => cfg_R c b i)) as Hq. unfold quad in Hq.
  enough (Eq : P i i - bil 2 2 Si (fun b => mmul 5 JH_gps P b i)
                                  (fun a => mmul 5 JH_gps P a i)
               = cfg_R c i i - bil 2 2 Si (fun b => cfg_R c b i) (fun b => cfg_R c b i))
    by lra.
  unfold inv2 in E.
  destruct (Req_EM_T (det2 (innov_cov (JH_of true) P (cfg_R c))) 0) as [_|nz]; [discriminate|].
  injection E as <-.
  pose proof (HsP 0%nat 1%nat ltac:(lia) ltac:(lia)) as SP.
  pose proof (HsR 0%nat 1%nat ltac:(lia) ltac:(lia)) as SR.
  unfold det2, innov_cov, madd, mmul, mtr, JH_of, JH_gps in nz |- *. simpl in nz |- *.
  destruct i as [|[|i]]; [| |lia]; unfold bil, mv; simpl;
    rewrite <- ?SP, <- ?SR; rewrite <- ?SP, <- ?SR in nz; field;
    match goal with |- ?X <> 0 => intros E; apply nz; transitivity X; [ring|exact E] end.
Qed.

(* ================================================================== *)
(** ** Instances *)

Lemma gps_first_step_at_origin_witness :
  (length [3; 4] = length [1; 2] /\ length [5; 6] = length [1; 2] /\ [1; 2] <> []) /\
  nth 0 (GPS_of [1; 2] [3; 4] [5; 6]) true = false /\
  x_init (mx_of [1; 2] [3; 4] [5; 6]) (my_of [1; 2] [5; 6]) [90] [36] [0] 0%nat = 0 /\
  x_init (mx_of [1; 2] [3; 4] [5; 6]) (my_of [1; 2] [5; 6]) [90] [36] [0] 1%nat = 0.
Proof.
  split; [split; [reflexivity|split; [reflexivity|discriminate]]|].
  apply gps_first_step_at_origin; [reflexivity|reflexivity|discriminate].
Defined.

Lemma gps_flag_iff_moved_witness :
  (length [0; 0] = length [0; 1] /\ length [0; 0] = length [0; 1] /\ (1 < length [0; 1])%nat) /\
  (nth 1 (GPS_of [0; 1] [0; 0] [0; 0]) true = false <->
   nth 1 (mx_of [0; 1] [0; 0] [0; 0]) 0 = nth 0 (mx_of [0; 1] [0; 0] [0; 0]) 0 /\
   nth 1 (my_of [0; 1] [0; 0]) 0 = nth 0 (my_of [0; 1] [0; 0]) 0).
Proof.
  split; [repeat split; simpl; lia|].
  apply gps_flag_iff_moved; simpl; lia.
Defined.

Lemma latekf_round_trip_witness :
  (length [0; 0] = length [48; 49] /\ Forall (fun a => a = 0) [0; 0] /\
   RadiusEarth + 0 <> 0 /\ (1 < length [48; 49])%nat) /\
  nth 1 (latekf_of [48; 49] [0; 0] (my_of [48; 49] [0; 0])) 0 = nth 1 [48; 49] 0.
Proof.
  assert (Hr : RadiusEarth + 0 <> 0) by (unfold RadiusEarth; lra).
  split; [repeat split; [repeat constructor|exact Hr|simpl; lia]|].
  apply (latekf_round_trip [48; 49] [0; 0] 0 1);
    [reflexivity|repeat constructor|exact Hr|simpl; lia].
Defined.

Lemma lonekf_round_trip_witness :
  (length [11; 12] = length [0; 0] /\ length [0; 0] = length [0; 0] /\
   Forall (fun a => a = 0) [0; 0] /\ Forall (fun l => l = 0) [0; 0] /\
   RadiusEarth + 0 <> 0 /\ cos (0 * PI / 180) <> 0 /\ (1 < length [0; 0])%nat) /\
  nth 1 (lonekf_of [0; 0] [11; 12] [0; 0] (mx_of [0; 0] [11; 12] [0; 0])) 0 = nth 1 [11; 12] 0.
Proof.
  assert (Hr : RadiusEarth + 0 <> 0) by (unfold RadiusEarth; lra).
  assert (Hc : cos (0 * PI / 180) <> 0)
    by (replace (0 * PI / 180) with 0 by field; rewrite cos_0; lra).
  split; [repeat split; [repeat constructor|repeat constructor|exact Hr|exact Hc|simpl; lia]|].
  apply (lonekf_round_trip [0; 0] [11; 12] [0; 0] 0 0 1);
    [reflexivity|reflexivity|repeat constructor|repeat constructor|exact Hr|exact Hc|simpl; lia].
Defined.

Lemma wrap_identity_witness : (-PI <= 1 < PI) /\ wrap 1 = 1.
Proof.
  assert (H : -PI <= 1 < PI) by (pose proof PI2_1; lra).
  split; [exact H|]. apply wrap_identity. exact H.
Defined.

Lemma predict_stationary_witness :
  (Rabs 1 < eps_yaw \/ vec5 1 2 0 0 1 4%nat <> 0) /\ vec5 1 2 0 0 1 3%nat = 0 /\
  predict_state dt_nb 1 (vec5 1 2 0 0 1) 0%nat = vec5 1 2 0 0 1 0%nat /\
  predict_state dt_nb 1 (vec5 1 2 0 0 1) 1%nat = vec5 1 2 0 0 1 1%nat.
Proof.
  assert (H : Rabs 1 < eps_yaw \/ vec5 1 2 0 0 1 4%nat <> 0) by (right; simpl; lra).
  split; [exact H|]. split; [reflexivity|].
  apply predict_stationary; [exact H|reflexivity].
Defined.

Lemma predict_displacement_bound_witness :
  (Rabs 1 < eps_yaw \/ vec5 0 0 0 10 1 4%nat <> 0) /\
  (predict_state dt_nb 1 (vec5 0 0 0 10 1) 0%nat - vec5 0 0 0 10 1 0%nat) ^ 2 +
  (predict_state dt_nb 1 (vec5 0 0 0 10 1) 1%nat - vec5 0 0 0 10 1 1%nat) ^ 2
  = (2 * (vec5 0 0 0 10 1 3%nat / vec5 0 0 0 10 1 4%nat) * sin (vec5 0 0 0 10 1 4%nat * dt_nb / 2)) ^ 2.
Proof.
  assert (H : Rabs 1 < eps_yaw \/ vec5 0 0 0 10 1 4%nat <> 0) by (right; simpl; lra).
  split; [exact H|].
  apply (proj1 (proj2 (predict_displacement_bound dt_nb 1 (vec5 0 0 0 10 1) H))).
  rewrite Rabs_R1. unfold eps_yaw; lra.
Defined.

Lemma jacobian_row_x_derivatives_witness :
  (~ Rabs 1 < eps_yaw /\ vec5 0 0 0 10 1 4%nat <> 0) /\
  derivable_pt_lim (fun p => predict_state dt_nb 1 (vset (vec5 0 0 0 10 1) 2%nat p) 0%nat)
    0 (a13 dt_nb (vec5 0 0 0 10 1)) /\
  derivable_pt_lim (fun p => predict_state dt_nb 1 (vset (vec5 0 0 0 10 1) 3%nat p) 0%nat)
    10 (a14 dt_nb (vec5 0 0 0 10 1)) /\
  derivable_pt_lim (fun p => predict_state dt_nb 1 (vset (vec5 0 0 0 10 1) 4%nat p) 0%nat)
    1 (a15 dt_nb (vec5 0 0 0 10 1)).
Proof.
  assert (Hw : ~ Rabs 1 < eps_yaw) by (rewrite Rabs_R1; unfold eps_yaw; lra).
  assert (Hr : vec5 0 0 0 10 1 4%nat <> 0) by (simpl; lra).
  split; [split; assumption|].
  exact (jacobian_row_x_derivatives dt_nb 1 (vec5 0 0 0 10 1) Hw Hr).
Defined.

Lemma jacobian_row_y_derivatives_witness :
  (~ Rabs 1 < eps_yaw /\ vec5 0 0 0 10 1 4%nat <> 0) /\
  derivable_pt_lim (fun p => predict_state dt_nb 1 (vset (vec5 0 0 0 10 1) 2%nat p) 1%nat)
    0 (a23 dt_nb (vec5 0 0 0 10 1)) /\
  derivable_pt_lim (fun p => predict_state dt_nb 1 (vset (vec5 0 0 0 10 1) 3%nat p) 1%nat)
    10 (a24 dt_nb (vec5 0 0 0 10 1)) /\
  derivable_pt_lim (fun p => predict_state dt_nb 1 (vset (vec5 0 0 0 10 1) 4%nat p) 1%nat)
    1 (a25 dt_nb (vec5 0 0 0 10 1)).
Proof.
  assert (Hw : ~ Rabs 1 < eps_yaw) by (rewrite Rabs_R1; unfold eps_yaw; lra).
  assert (Hr : vec5 0 0 0 10 1 4%nat <> 0) by (simpl; lra).
  split; [split; assumption|].
  exact (jacobian_row_y_derivatives dt_nb 1 (vec5 0 0 0 10 1) Hw Hr).
Defined.

Lemma predict_variance_ge_noise_witness :
  (psd 5 P0_nb /\ (0 < 5)%nat) /\
  Q_nb 0%nat 0%nat <= predict_cov (JA_of dt_nb (vec5 0 0 0 10 1)) P0_nb Q_nb 0%nat 0%nat.
Proof.
  split; [split; [exact (proj2 P0_nb_ok)|lia]|].
  apply (predict_variance_ge_noise (JA_of dt_nb (vec5 0 0 0 10 1)) P0_nb Q_nb 0);
    [exact (proj2 P0_nb_ok)|lia].
Defined.

Lemma update_variance_le_witness :
  exists x' P' K,
    update cfg_nb true (vec5 1 2 0 0 0) (vec5 0 0 0 10 0) P0_nb = Some (x', P', K) /\
    P' 0%nat 0%nat <= P0_nb 0%nat 0%nat.
Proof.
  destruct P0_nb_ok as [HsP HpP]. destruct cfg_nb_R as [HsR HdR].
  assert (HpR : psd 2 (cfg_R cfg_nb)) by exact (pd_psd2 cfg_nb HdR).
  destruct (update cfg_nb true (vec5 1 2 0 0 0) (vec5 0 0 0 10 0) P0_nb)
    as [[[x' P'] K]|] eqn:E.
  - exists x', P', K. split; [reflexivity|].
    exact (update_variance_le cfg_nb true (vec5 1 2 0 0 0) (vec5 0 0 0 10 0) x' P0_nb P' K 0
             HsP HpP HsR HpR E ltac:(lia)).
  - exfalso. revert E. apply update_defined.
    + apply innov_cov_sym; assumption.
    + apply innov_cov_pd; assumption.
Defined.

Lemma update_exact_fix_witness :
  exists x' P' K,
    update cfg_nb true (vec5 3 4 0 0 0) (vec5 3 4 0 10 0) P0_nb = Some (x', P', K) /\
    vec5 3 4 0 0 0 0%nat = vec5 3 4 0 10 0 0%nat /\ vec5 3 4 0 0 0 1%nat = vec5 3 4 0 10 0 1%nat /\
    forall i, x' i = vec5 3 4 0 10 0 i.
Proof.
  destruct P0_nb_ok as [HsP HpP]. destruct cfg_nb_R as [HsR HdR].
  destruct (update cfg_nb true (vec5 3 4 0 0 0) (vec5 3 4 0 10 0) P0_nb)
    as [[[x' P'] K]|] eqn:E.
  - exists x', P', K. split; [reflexivity|]. split; [reflexivity|]. split; [reflexivity|].
    exact (update_exact_fix cfg_nb true (vec5 3 4 0 0 0) (vec5 3 4 0 10 0) x' P0_nb P' K
             E eq_refl eq_refl).
  - exfalso. revert E. apply update_defined.
    + apply innov_cov_sym; assumption.
    + apply innov_cov_pd; assumption.
Defined.

Lemma fix_position_variance_le_R_witness :
  exists x' P' K,
    update cfg_nb true (vec5 1 2 0 0 0) (vec5 0 0 0 10 0) P0_nb = Some (x', P', K) /\
    P' 0%nat 0%nat <= cfg_R cfg_nb 0%nat 0%nat.
Proof.
  destruct P0_nb_ok as [HsP HpP]. destruct cfg_nb_R as [HsR HdR].
  assert (HpR : psd 2 (cfg_R cfg_nb)) by exact (pd_psd2 cfg_nb HdR).
  destruct (update cfg_nb true (vec5 1 2 0 0 0) (vec5 0 0 0 10 0) P0_nb)
    as [[[x' P'] K]|] eqn:E.
  - exists x', P', K. split; [reflexivity|].
    exact (fix_position_variance_le_R cfg_nb (vec5 1 2 0 0 0) (vec5 0 0 0 10 0) x' P0_nb P' K 0
             HsP HpP HsR HpR E ltac:(lia)).
  - exfalso. revert E. apply update_defined.
    + apply innov_cov_sym; assumption.
    + apply innov_cov_pd; assumption.
Defined.
